(** * FROC evaluation of a mass-detection model: [compute_FROC.py]

    A shallow embedding of [post], [compute_FROC] and the accumulation and
    final metrics of [main], followed by the properties of the
    specification, stated over it.

    Modelling conventions.
    - A 2-D numpy array is a list of rows ([image A]); what numpy raises
      (a boolean index of another shape, [max] of an empty array, an
      in-place sum that cannot be broadcast) is [None].
    - Logits and thresholds are float arrays in the source; here they are
      real numbers ([R]), so [np.log] is [ln] and [>=] is the order of the
      reals.  Rounding is not modelled.
    - The count vectors [TPs] and [FPs] are float64 arrays that only ever
      hold counts; they are lists of [nat].
    - [overlap_area / lesion_area] is the true division of two counts
      (Python 3) compared with the literal [0.1]; it is an exact rational
      comparison here.
    - [scipy.ndimage.label] is a library routine; it is modelled by a scan
      with a fill per region ([Ndimage.label]), which is then shown to
      number exactly the groups of connected foreground pixels
      ([label_spec]).
    - Reading the csv file, the images and the network are outside the
      model: a data set is the list of (logits, label) pairs they yield. *)

From Stdlib Require Import List Arith ZArith QArith Qminmax Bool Lia Permutation.
From Stdlib Require Import Reals Lra.
Import ListNotations.

Open Scope nat_scope.

(** ** The option monad, for the operations that can raise *)

Definition bind {A B : Type} (m : option A) (k : A -> option B) : option B :=
  match m with
  | Some x => k x
  | None => None
  end.

Notation "x <- m ;; k" := (bind m (fun x => k))
  (at level 61, m at next level, right associativity).

(** ** numpy arrays *)

Module Np.

Definition image (A : Type) : Type := list (list A).

Fixpoint zip_with {A B C : Type} (f : A -> B -> C) (xs : list A) (ys : list B)
  : list C :=
  match xs, ys with
  | x :: xs', y :: ys' => f x y :: zip_with f xs' ys'
  | _, _ => []
  end.

(** The lengths of the rows, in order: two arrays have the same shape when
    these agree. *)
Definition shape {A : Type} (a : image A) : list nat := map (@length A) a.

Fixpoint eqb_shape (s1 s2 : list nat) : bool :=
  match s1, s2 with
  | [], [] => true
  | n :: s1', m :: s2' => Nat.eqb n m && eqb_shape s1' s2'
  | _, _ => false
  end.

Definition same_shape {A B : Type} (a : image A) (b : image B) : bool :=
  eqb_shape (shape a) (shape b).

(** [a[r, c]], with a default outside the array. *)
Definition get {A : Type} (d : A) (a : image A) (r c : nat) : A :=
  nth c (nth r a []) d.

(** [a[r, c]] where the array has such an entry. *)
Definition pixel {A : Type} (a : image A) (r c : nat) : option A :=
  match nth_error a r with
  | Some row => nth_error row c
  | None => None
  end.

(** [np.ones(a.shape) * v] *)
Definition full_like {A B : Type} (a : image A) (v : B) : image B :=
  map (map (fun _ => v)) a.

(** [a[mask] = v]: raises unless the mask has the shape of [a]. *)
Definition put_mask {A : Type} (a : image A) (mask : image bool) (v : A)
  : option (image A) :=
  if same_shape a mask
  then Some (zip_with (zip_with (fun x (b : bool) => if b then v else x)) a mask)
  else None.

(** [a == v] on an integer array. *)
Definition eq_Z (a : image Z) (v : Z) : image bool :=
  map (map (fun x => Z.eqb x v)) a.

(** [a == v] on an array of region identifiers. *)
Definition eq_nat (a : image nat) (v : nat) : image bool :=
  map (map (fun x => Nat.eqb x v)) a.

(** [x >= t] on reals, as a boolean. *)
Definition Rgeb (x t : R) : bool := if Rge_dec x t then true else false.

(** [a >= t] on a float array. *)
Definition ge_R (a : image R) (t : R) : image bool :=
  map (map (fun x => Rgeb x t)) a.

(** [np.logical_and(a, b)] *)
Definition logical_and (a b : image bool) : image bool :=
  zip_with (zip_with andb) a b.

(** [a.sum()] of a boolean array: the number of [True] entries. *)
Definition sum (a : image bool) : nat :=
  length (filter (fun b : bool => b) (concat a)).

(** [a.max()]: raises on an array without entries. *)
Definition max (a : image Z) : option Z :=
  match concat a with
  | [] => None
  | x :: xs => Some (fold_left Z.max xs x)
  end.

(** [v[i]] on a vector with Python's indexing: a negative index counts from
    the end. *)
Definition item (v : list nat) (i : Z) : nat :=
  if (i <? 0)%Z then nth (Z.to_nat (Z.of_nat (length v) + i)) v 0%nat
  else nth (Z.to_nat i) v 0%nat.

(** [v[i] = x] for an index inside the vector. *)
Fixpoint set_item (v : list nat) (i : nat) (x : nat) : list nat :=
  match v, i with
  | [], _ => []
  | _ :: v', O => x :: v'
  | y :: v', S i' => y :: set_item v' i' x
  end.

(** The entries of an array read from an 8-bit image ([dtype=uint8]). *)
Definition is_uint8 (a : image Z) : bool :=
  forallb (fun v => (0 <=? v)%Z && (v <=? 255)%Z) (concat a).

(** [np.zeros(n)] *)
Definition zeros (n : nat) : list nat := repeat 0%nat n.

(** [np.linspace(start, stop, num)] (endpoint included): the step is
    [(stop - start) / (num - 1)], and the last entry is set to [stop]. *)
Definition linspace (start stop : R) (num : nat) : list R :=
  let div := (num - 1)%nat in
  let delta := (stop - start)%R in
  let y := map INR (seq 0 num) in
  let y := if (0 <? div)%nat
           then map (fun k => (k * (delta / INR div))%R) y
           else map (fun k => (k * delta)%R) y in
  let y := map (fun k => (k + start)%R) y in
  if (1 <? num)%nat then removelast y ++ [stop] else y.

End Np.

Import Np.

(** ** [post]: the segmentation of one image at one threshold *)

Definition post (logits : image R) (label : image Z) (threshold : R)
  : option (image Z) :=
  let thresholded := full_like logits 127%Z in
  thresholded <- put_mask thresholded (ge_R logits threshold) 255%Z ;;
  thresholded <- put_mask thresholded (eq_Z label 0) 0%Z ;;
  Some thresholded.

(** ** The threshold ladder of [compute_FROC] *)

Definition probs (num_thresholds : nat) : list R :=
  linspace 0.9999 0.0001 num_thresholds.

Definition thresholds (num_thresholds : nat) : list R :=
  map (fun p => (ln p - ln (1 - p))%R) (probs num_thresholds).

(** ** [scipy.ndimage.label]

    The library routine the source calls: it numbers the connected groups of
    [True] pixels of [input] 1, 2, ... in the order a row-by-row scan meets
    them, two pixels being adjacent when the 3x3 [structure] has a nonzero
    entry at their offset, and returns the array of numbers (0 on the
    background) with the number of groups.  It is modelled as that scan, each
    new group being filled from its first pixel through a work list. *)

Module Ndimage.

(** The offsets [(dr + 1, dc + 1)] the structuring element allows. *)
Definition offsets (structure : image Z) : list (nat * nat) :=
  flat_map (fun dr =>
    flat_map (fun dc =>
      if Z.eqb (get 0%Z structure dr dc) 0 then [] else [(dr, dc)])
      (seq 0 3))
    (seq 0 3).

Definition neighbours (structure : image Z) (r c : nat) : list (nat * nat) :=
  flat_map (fun d : nat * nat =>
    let (dr, dc) := d in
    if Nat.eqb (r + dr) 0 || Nat.eqb (c + dc) 0 then []
    else [(r + dr - 1, c + dc - 1)]%nat)
    (offsets structure).

(** [a[r, c] = v] for a position inside the array. *)
Fixpoint set_pixel (a : image nat) (r c : nat) (v : nat) : image nat :=
  match a, r with
  | [], _ => []
  | row :: a', O => set_item row c v :: a'
  | row :: a', S r' => row :: set_pixel a' r' c v
  end.

(** A pixel still to be numbered: in the foreground and still 0 in [out]. *)
Definition fresh (input : image bool) (out : image nat) (r c : nat) : bool :=
  get false input r c && Nat.eqb (get 0%nat out r c) 0.

(** Fill the group of the pixels on the work list with [id]. *)
Fixpoint flood (fuel : nat) (input : image bool) (structure : image Z)
  (id : nat) (work : list (nat * nat)) (out : image nat) : image nat :=
  match fuel with
  | O => out
  | S fuel' =>
      match work with
      | [] => out
      | (r, c) :: work' =>
          if fresh input out r c
          then flood fuel' input structure id
                 (neighbours structure r c ++ work') (set_pixel out r c id)
          else flood fuel' input structure id work' out
      end
  end.

(** The positions of an array, row by row. *)
Definition coords {A : Type} (a : image A) : list (nat * nat) :=
  flat_map (fun r => map (fun c => (r, c)) (seq 0 (length (nth r a []))))
           (seq 0 (length a)).

(** Every numbered pixel puts at most nine positions on the work list, so
    this many steps empty it. *)
Definition flood_fuel {A : Type} (a : image A) : nat :=
  S (10 * length (coords a)).

Definition scan (input : image bool) (structure : image Z)
  (st : image nat * nat) (p : nat * nat) : image nat * nat :=
  let (out, n) := st in
  let (r, c) := p in
  if fresh input out r c
  then (flood (flood_fuel input) input structure (S n) [(r, c)] out, S n)
  else (out, n).

Definition label (input : image bool) (structure : image Z)
  : image nat * nat :=
  fold_left (scan input structure) (coords input) (full_like input 0%nat, 0%nat).

End Ndimage.

(** ** [compute_FROC]: the counts of one image over the ladder *)

Definition NUM_THRESHOLDS : nat := 50.
Definition ACCEPTANCE_RATIO : Q := (1 # 10)%Q.

Definition structure_mask : image Z :=
  [[1; 1; 1]; [1; 1; 1]; [1; 1; 1]]%Z.

(** [overlap_area / lesion_area >= ACCEPTANCE_RATIO] *)
Definition accepted (overlap_area lesion_area : nat) : bool :=
  Qle_bool ACCEPTANCE_RATIO
    (inject_Z (Z.of_nat overlap_area) / inject_Z (Z.of_nat lesion_area)).

Record counts : Type := mk_counts {
  c_FPs : list nat;
  c_TPs : list nat;
  c_num_lesions : nat
}.

(** [(lesions == lesion_id).sum()] *)
Definition lesion_area (lesions : image nat) (lesion_id : nat) : nat :=
  Np.sum (eq_nat lesions lesion_id).

(** [np.logical_and(lesions == lesion_id, segmentation == 255).sum()] *)
Definition overlap_area (lesions : image nat) (segmentation : image Z)
  (lesion_id : nat) : nat :=
  Np.sum (logical_and (eq_nat lesions lesion_id) (eq_Z segmentation 255)).

(** One pass of the inner loop over the lesions. *)
Definition lesion_step (lesions : image nat) (segmentation : image Z)
  (threshold : nat) (TPs : list nat) (lesion_id : nat) : list nat :=
  if accepted (overlap_area lesions segmentation lesion_id)
              (lesion_area lesions lesion_id)
  then set_item TPs threshold (item TPs (Z.of_nat threshold) + 1)
  else TPs.

(** One pass of the loop over the thresholds. *)
Definition threshold_step (logits : image R) (label : image Z)
  (ladder : list R) (st : counts) (threshold : nat) : option counts :=
  segmentation <- post logits label (nth threshold ladder 0%R) ;;
  m <- Np.max label ;;
  if Z.eqb m 255 then
    let (lesions, num_lesions) :=
      Ndimage.label (eq_Z label 255) structure_mask in
    let TPs :=
      fold_left (lesion_step lesions segmentation threshold)
                (seq 1 num_lesions) (c_TPs st) in
    Some (mk_counts (c_FPs st) TPs num_lesions)
  else
    let num_FPs := snd (Ndimage.label (eq_Z segmentation 255) structure_mask) in
    let FPs :=
      set_item (c_FPs st) threshold
               (item (c_FPs st) (Z.of_nat threshold) + num_FPs) in
    let FPs :=
      if item FPs (Z.of_nat threshold) <? item FPs (Z.of_nat threshold - 1)
      then set_item FPs threshold (item FPs (Z.of_nat threshold - 1))
      else FPs in
    Some (mk_counts FPs (c_TPs st) (c_num_lesions st)).

Fixpoint for_each {S A : Type} (body : S -> A -> option S) (xs : list A)
  (st : S) : option S :=
  match xs with
  | [] => Some st
  | x :: xs' => st' <- body st x ;; for_each body xs' st'
  end.

(** The parameter [acceptance_ratio] is received and never read: the test
    in [lesion_step] is against the constant [ACCEPTANCE_RATIO]. *)
Definition compute_FROC (logits : image R) (label : image Z)
  (num_thresholds : nat) (acceptance_ratio : Q)
  : option (list nat * list nat * nat) :=
  let ladder := thresholds num_thresholds in
  let st := mk_counts (zeros num_thresholds) (zeros num_thresholds) 0 in
  st <- for_each (threshold_step logits label ladder)
                 (seq 0 num_thresholds) st ;;
  Some (c_FPs st, c_TPs st, c_num_lesions st).

(** ** [main]: accumulation over the data set and the final metrics

    A row of the csv file is taken with what the surrounding code derives
    from it: the logits the network predicts for the image, and the label.
    The interpolated operating point ([np.interp], which raises on no pair
    of arrays of one nonzero length) is not modelled. *)

(** A float that is the quotient of two counts. *)
Inductive npfloat : Type :=
| Finite (q : Q)
| PosInf
| NaN.

(** [x / d] on float64: numpy warns on a zero divisor and gives [nan] for
    [0 / 0] and [inf] for a positive [x]. *)
Definition true_divide (x d : nat) : npfloat :=
  match d with
  | O => match x with O => NaN | S _ => PosInf end
  | S _ => Finite (inject_Z (Z.of_nat x) / inject_Z (Z.of_nat d))
  end.

(** [acc += x] on vectors: [x] is added entry by entry, or broadcast when it
    has a single entry; any other length raises. *)
Definition iadd (acc x : list nat) : option (list nat) :=
  if Nat.eqb (length x) (length acc) then Some (zip_with Nat.add acc x)
  else if Nat.eqb (length x) 1 then Some (map (fun a => a + nth 0 x 0)%nat acc)
  else None.

Record totals : Type := mk_totals {
  t_FPs : list nat;
  t_TPs : list nat;
  t_num_normal_images : nat;
  t_num_lesions : nat
}.

Definition example : Type := (image R * image Z)%type.

(** The body of the loop over the rows. *)
Definition accumulate (num_thresholds : nat) (acceptance_ratio : Q)
  (t : totals) (row : example) : option totals :=
  let (logits, label) := row in
  im <- compute_FROC logits label num_thresholds acceptance_ratio ;;
  let '(im_FPs, im_TPs, im_lesions) := im in
  FPs <- iadd (t_FPs t) im_FPs ;;
  TPs <- iadd (t_TPs t) im_TPs ;;
  let num_lesions := (t_num_lesions t + im_lesions)%nat in
  let num_normal_images :=
    if Nat.eqb im_lesions 0 then (t_num_normal_images t + 1)%nat
    else t_num_normal_images t in
  Some (mk_totals FPs TPs num_normal_images num_lesions).

Definition initial_totals : totals :=
  mk_totals (zeros NUM_THRESHOLDS) (zeros NUM_THRESHOLDS) 0 0.

Definition accumulate_all (data : list example) (num_thresholds : nat)
  (acceptance_ratio : Q) : option totals :=
  for_each (accumulate num_thresholds acceptance_ratio) data initial_totals.

(** [sensitivity] and [FP_per_image] *)
Definition final_metrics (t : totals) : list npfloat * list npfloat :=
  let sensitivity := map (fun x => true_divide x (t_num_lesions t)) (t_TPs t) in
  let FP_per_image :=
    map (fun x => true_divide x (t_num_normal_images t)) (t_FPs t) in
  (sensitivity, FP_per_image).

Definition main (data : list example) (num_thresholds : nat)
  (acceptance_ratio : Q) : option (list npfloat * list npfloat) :=
  t <- accumulate_all data num_thresholds acceptance_ratio ;;
  Some (final_metrics t).

(** * Notions used in the statements *)

(** ** Segmentations and counts *)

(** What the three assignments of [post] leave at one pixel. *)
Definition post_pixel (threshold : R) (x : R) (l : Z) : Z :=
  if Z.eqb l 0 then 0%Z else if Rgeb x threshold then 255%Z else 127%Z.

(** The segmentation at ladder position [i]. *)
Definition segmentation_at (logits : image R) (label : image Z)
  (num_thresholds i : nat) : image Z :=
  zip_with (zip_with (post_pixel (nth i (thresholds num_thresholds) 0%R)))
           logits label.

(** A lesion passes the test of the inner loop. *)
Definition detected (lesions : image nat) (segmentation : image Z)
  (lesion_id : nat) : bool :=
  accepted (overlap_area lesions segmentation lesion_id)
           (lesion_area lesions lesion_id).

(** The number of lesions 1..[num_lesions] that pass it. *)
Definition tp_count (lesions : image nat) (num_lesions : nat)
  (segmentation : image Z) : nat :=
  length (filter (detected lesions segmentation) (seq 1 num_lesions)).

(** The number of groups of 255-pixels of a segmentation. *)
Definition blob_count (segmentation : image Z) : nat :=
  snd (Ndimage.label (eq_Z segmentation 255) structure_mask).

(** The running maximum of the counts [raw 0 .. raw i]. *)
Fixpoint clamped (raw : nat -> nat) (i : nat) : nat :=
  match i with
  | O => raw 0
  | S i' => Nat.max (raw i) (clamped raw i')
  end.

(** [y] is set wherever [x] is. *)
Definition below (x y : bool) : Prop := x = true -> y = true.

(** ** The probability grid *)

(** The [i]-th point of the uniform grid from [start] to [stop] in [num]
    points. *)
Definition grid_point (start stop : R) (num i : nat) : R :=
  if 1 <? num then (start + INR i * ((stop - start) / INR (num - 1)))%R
  else start.

(** [prob2logit] *)
Definition logit (p : R) : R := (ln p - ln (1 - p))%R.

(** ** Broadcasting in [+=] *)

(** A vector that [+=] accepts for an accumulator of length [n]. *)
Definition compatible (n : nat) (x : list nat) : bool :=
  (length x =? n) || (length x =? 1).

(** What is added entry by entry, after broadcasting. *)
Definition spread (n : nat) (x : list nat) : list nat :=
  if length x =? n then x else repeat (nth 0 x 0) n.

(** ** Regions of an image *)

Definition pos : Type := (nat * nat)%type.

(** A position inside an array. *)
Definition inside {A : Type} (a : image A) (r c : nat) : Prop :=
  r < length a /\ c < length (nth r a []).

(** The number an array of region numbers holds at a position. *)
Definition lab (out : image nat) (p : pos) : nat := get 0 out (fst p) (snd p).

(** A foreground position of [input]. *)
Definition fg (input : image bool) (p : pos) : Prop :=
  get false input (fst p) (snd p) = true.

(** [q] is next to [p] by the structuring element. *)
Definition adjacent (structure : image Z) (p q : pos) : Prop :=
  In q (Ndimage.neighbours structure (fst p) (snd p)).

(** [q] is reached from [p] through adjacent foreground positions. *)
Inductive connected (input : image bool) (structure : image Z)
  : pos -> pos -> Prop :=
| connected_refl p : fg input p -> connected input structure p p
| connected_step p q r :
    connected input structure p q -> adjacent structure q r -> fg input r ->
    connected input structure p r.

(** The number of positions not yet numbered. *)
Definition unlabelled (input : image bool) (out : image nat) : nat :=
  length (filter (fun p : pos => Ndimage.fresh input out (fst p) (snd p))
                 (Ndimage.coords input)).

(** What holds while [flood] fills the group of [seed] with [id], starting
    from the numbering [out0]. *)
Record flood_inv (input : image bool) (structure : image Z)
  (out0 : image nat) (id : nat) (seed : pos)
  (work : list pos) (out : image nat) : Prop := {
  fi_shape : shape out = shape input;
  fi_frame : forall p, lab out0 p <> 0 -> lab out p = lab out0 p;
  fi_new : forall p, lab out0 p = 0 -> lab out p <> 0 ->
             lab out p = id /\ connected input structure seed p;
  fi_work : forall w, In w work -> fg input w ->
              connected input structure seed w;
  fi_pending : forall p q, lab out0 p = 0 -> lab out p <> 0 ->
                 adjacent structure p q -> fg input q ->
                 lab out q <> 0 \/ In q work;
  fi_seed : lab out seed <> 0 \/ In seed work
}.

(** What holds after the scan has passed the positions [done]. *)
Record scan_inv (input : image bool) (structure : image Z)
  (done : list pos) (out : image nat) (n : nat) : Prop := {
  si_shape : shape out = shape input;
  si_range : forall p, lab out p <= n;
  si_fg : forall p, lab out p <> 0 -> fg input p;
  si_closed : forall p q, lab out p <> 0 -> adjacent structure p q ->
                fg input q -> lab out q = lab out p;
  si_conn : forall p q, lab out p <> 0 -> lab out p = lab out q ->
              connected input structure p q;
  si_done : forall p, In p done -> fg input p -> lab out p <> 0;
  si_used : forall id, 1 <= id <= n -> exists p, lab out p = id
}.

(** ** Sample images

    Every cutoff of the ladder lies strictly between -10000 and 10000, so a
    heatmap that only takes these two values is segmented the same way at
    every position, and the counts on it can be computed. *)

Definition heat (mask : image bool) : image R :=
  map (map (fun b : bool => if b then 10000 else -10000)%R) mask.

(** The segmentation of a two-level heatmap. *)
Definition segment_mask (mask : image bool) (label : image Z) : image Z :=
  zip_with (zip_with (fun (b : bool) l =>
              if Z.eqb l 0 then 0 else if b then 255 else 127)%Z)
           mask label.

Definition logits_2x2 : image R := [[3; -1]; [0; 5]]%R.
Definition label_2x2 : image Z := [[255; 0]; [255; 255]]%Z.

Definition label_normal_2x2 : image Z := [[127; 0]; [127; 127]]%Z.

(** One lesion of five pixels in a row, the first of them predicted. *)
Definition row_mask : image bool := [[true; false; false; false; false]].
Definition row_label : image Z := [[255; 255; 255; 255; 255]]%Z.

Definition label_10x10 : image Z := repeat (repeat 255%Z 10) 10.

(** Predictions on the first [k] pixels of the first row. *)
Definition first_row (k : nat) : image bool :=
  (repeat true k ++ repeat false (10 - k)) :: repeat (repeat false 10) 9.

(** A normal image (tissue everywhere) with two separate predicted groups. *)
Definition normal_image : example :=
  (heat [[true; false; true]], [[127; 127; 127]]%Z).

(** A lesion of one pixel that is predicted, and a normal image with one
    predicted pixel. *)
Definition lesion_image : example := (heat [[true]], [[255]]%Z).
Definition one_blob_image : example := (heat [[true]], [[127]]%Z).

(** ** Notions for the properties of whole runs *)

(** A vector of counts that never decreases with the index. *)
Definition nondecreasing (v : list nat) : Prop :=
  forall i j, i <= j -> j < length v -> nth i v 0 <= nth j v 0.

(** The invariant of the loop of [main]. *)
Definition totals_ok (t : totals) : Prop :=
  length (t_FPs t) = NUM_THRESHOLDS /\ length (t_TPs t) = NUM_THRESHOLDS /\
  nondecreasing (t_FPs t) /\ nondecreasing (t_TPs t) /\
  (forall i, nth i (t_TPs t) 0 <= t_num_lesions t).

(** The quotient of two counts. *)
Definition ratio (x d : nat) : Q :=
  (inject_Z (Z.of_nat x) / inject_Z (Z.of_nat d))%Q.

(** The number of regions of 255-pixels of a label. *)
Definition region_count (label : image Z) : nat :=
  snd (Ndimage.label (eq_Z label 255) structure_mask).

(** [255 in label] *)
Definition has_lesion (label : image Z) : bool :=
  existsb (Z.eqb 255) (concat label).

(** All entries of a vector are the same. *)
Definition constant (v : list nat) : Prop :=
  forall i j, i < length v -> j < length v -> nth i v 0 = nth j v 0.

(** A heatmap that differs from [logits_2x2] at one pixel only. *)
Definition logits_2x2_other : image R := [[3; 77]; [0; 5]]%R.

(** * Properties *)

(** ** Lists and arrays *)

Section ArrayFacts.

Context {A B C D : Type}.

Lemma zip_with_map_l (f : B -> C -> D) (g : A -> B) xs ys :
  zip_with f (map g xs) ys = zip_with (fun x y => f (g x) y) xs ys.
Proof.
  revert ys; induction xs as [|x xs IH]; intros [|y ys]; simpl; auto.
  now rewrite IH.
Qed.

Lemma zip_with_map_r (f : A -> C -> D) (g : B -> C) xs ys :
  zip_with f xs (map g ys) = zip_with (fun x y => f x (g y)) xs ys.
Proof.
  revert ys; induction xs as [|x xs IH]; intros [|y ys]; simpl; auto.
  now rewrite IH.
Qed.

Lemma zip_with_diag (f : A -> A -> D) xs :
  zip_with f xs xs = map (fun x => f x x) xs.
Proof. induction xs; simpl; congruence. Qed.

Lemma zip_with_ext (f g : A -> B -> D) xs ys :
  (forall x y, f x y = g x y) -> zip_with f xs ys = zip_with g xs ys.
Proof.
  intros H; revert ys; induction xs as [|x xs IH]; intros [|y ys]; simpl; auto.
  now rewrite H, IH.
Qed.

Lemma zip_with_length (f : A -> B -> D) xs ys :
  length xs = length ys -> length (zip_with f xs ys) = length xs.
Proof.
  revert ys; induction xs as [|x xs IH]; intros [|y ys]; simpl; auto; easy.
Qed.

Lemma nth_error_zip_with (f : A -> B -> D) xs ys i :
  nth_error (zip_with f xs ys) i =
  match nth_error xs i, nth_error ys i with
  | Some x, Some y => Some (f x y)
  | _, _ => None
  end.
Proof.
  revert ys i; induction xs as [|x xs IH]; intros [|y ys] [|i]; simpl; auto.
  now destruct (nth_error xs i).
Qed.

Lemma shape_map (f : A -> B) (a : image A) : shape (map (map f) a) = shape a.
Proof.
  unfold shape; rewrite map_map; apply map_ext; intros; apply length_map.
Qed.

Lemma shape_zip_with (f : A -> B -> D) (a : image A) (b : image B) :
  same_shape a b = true -> shape (zip_with (zip_with f) a b) = shape a.
Proof.
  unfold same_shape, shape; revert b.
  induction a as [|x a IH]; intros [|y b]; simpl; auto; try easy.
  rewrite andb_true_iff, Nat.eqb_eq; intros [H1 H2].
  now rewrite zip_with_length, IH.
Qed.

End ArrayFacts.

Lemma eqb_shape_refl s : eqb_shape s s = true.
Proof. induction s; simpl; auto; now rewrite Nat.eqb_refl. Qed.

Lemma eqb_shape_eq s1 s2 : eqb_shape s1 s2 = true <-> s1 = s2.
Proof.
  split; [|intros ->; apply eqb_shape_refl].
  revert s2; induction s1 as [|n s1 IH]; intros [|m s2]; simpl; try easy.
  rewrite andb_true_iff, Nat.eqb_eq; intros [-> H]; f_equal; auto.
Qed.

(** ** [post], pixel by pixel *)

Lemma post_unfold logits label threshold :
  post logits label threshold =
  if same_shape logits label
  then Some (zip_with (zip_with (post_pixel threshold)) logits label)
  else None.
Proof.
  unfold post, put_mask, full_like, ge_R, eq_Z, same_shape.
  rewrite !shape_map, eqb_shape_refl; simpl.
  rewrite zip_with_map_l, zip_with_map_r, zip_with_diag.
  rewrite map_ext with (g := map (fun x => if Rgeb x threshold then 255%Z else 127%Z)).
  2:{ intros row. now rewrite zip_with_map_l, zip_with_map_r, zip_with_diag. }
  rewrite !shape_map.
  destruct (eqb_shape (shape logits) (shape label)); auto.
  rewrite zip_with_map_l, zip_with_map_r; simpl; f_equal.
  apply zip_with_ext; intros row1 row2.
  rewrite zip_with_map_l, zip_with_map_r.
  apply zip_with_ext; intros x l.
  unfold post_pixel. now destruct (Z.eqb l 0).
Qed.

Lemma pixel_zip_with {A B D : Type} (f : A -> B -> D) a b r c :
  pixel (zip_with (zip_with f) a b) r c =
  match pixel a r c, pixel b r c with
  | Some x, Some y => Some (f x y)
  | _, _ => None
  end.
Proof.
  unfold pixel; rewrite nth_error_zip_with.
  destruct (nth_error a r) as [ra|], (nth_error b r) as [rb|]; auto.
  - apply nth_error_zip_with.
  - now destruct (nth_error ra c).
Qed.

Lemma same_shape_pixel {A B : Type} (a : image A) (b : image B) r c y :
  same_shape a b = true -> pixel b r c = Some y ->
  exists x, pixel a r c = Some x.
Proof.
  unfold same_shape, shape; rewrite eqb_shape_eq; intros Hs.
  assert (Hr : nth_error (map (@length A) a) r = nth_error (map (@length B) b) r)
    by now rewrite Hs.
  rewrite !nth_error_map in Hr.
  unfold pixel; destruct (nth_error b r) as [rb|]; [|easy].
  destruct (nth_error a r) as [ra|]; [|easy].
  simpl in Hr; injection Hr as Hr; intros Hy.
  assert (Hc : c < length rb) by (apply nth_error_Some; congruence).
  rewrite <- Hr in Hc; apply nth_error_Some in Hc.
  destruct (nth_error ra c) as [x|]; [now exists x | easy].
Qed.

Lemma Rgeb_true x t : (x >= t)%R -> Rgeb x t = true.
Proof. unfold Rgeb; now destruct (Rge_dec x t). Qed.

Lemma Rgeb_false x t : (x < t)%R -> Rgeb x t = false.
Proof. unfold Rgeb; destruct (Rge_dec x t); auto; lra. Qed.

Lemma Rgeb_spec x t : Rgeb x t = true <-> (x >= t)%R.
Proof. unfold Rgeb; destruct (Rge_dec x t); split; auto; easy. Qed.

(** C3. On a heatmap and a label of one shape [post] returns a segmentation
    of that shape, and at every pixel it holds 0 where the label is 0
    (whatever the logit), 255 where the label is not 0 and the logit is at
    least the threshold, and 127 at every other pixel. *)
Theorem post_three_classes (logits : image R) (label : image Z) (threshold : R) :
  same_shape logits label = true ->
  exists seg,
    post logits label threshold = Some seg /\
    shape seg = shape label /\
    forall r c l, pixel label r c = Some l ->
      exists x, pixel logits r c = Some x /\
        (l = 0%Z -> pixel seg r c = Some 0%Z) /\
        (l <> 0%Z -> (x >= threshold)%R -> pixel seg r c = Some 255%Z) /\
        (l <> 0%Z -> (x < threshold)%R -> pixel seg r c = Some 127%Z).
Proof.
  intros Hs; rewrite post_unfold, Hs.
  eexists; split; [reflexivity|]; split.
  - rewrite shape_zip_with by assumption.
    now apply eqb_shape_eq.
  - intros r c l Hl.
    destruct (same_shape_pixel logits label r c l Hs Hl) as [x Hx].
    exists x; split; [assumption|].
    rewrite pixel_zip_with, Hx, Hl; unfold post_pixel.
    repeat split.
    + now intros ->.
    + intros Hz Hge; apply Z.eqb_neq in Hz; now rewrite Hz, Rgeb_true.
    + intros Hz Hlt; apply Z.eqb_neq in Hz; now rewrite Hz, Rgeb_false.
Qed.

Lemma post_three_classes_witness :
  same_shape logits_2x2 label_2x2 = true /\
  exists seg,
    post logits_2x2 label_2x2 1 = Some seg /\
    shape seg = shape label_2x2 /\
    forall r c l, pixel label_2x2 r c = Some l ->
      exists x, pixel logits_2x2 r c = Some x /\
        (l = 0%Z -> pixel seg r c = Some 0%Z) /\
        (l <> 0%Z -> (x >= 1)%R -> pixel seg r c = Some 255%Z) /\
        (l <> 0%Z -> (x < 1)%R -> pixel seg r c = Some 127%Z).
Proof.
  split; [reflexivity|].
  apply (post_three_classes logits_2x2 label_2x2 1); reflexivity.
Defined.

(** ** The threshold ladder *)

Lemma linspace_raw start stop num :
  linspace start stop num =
  let y := map (grid_point start stop num) (seq 0 num) in
  if 1 <? num then removelast y ++ [stop] else y.
Proof.
  unfold linspace, grid_point.
  assert (E : (0 <? num - 1) = (1 <? num)).
  { destruct (Nat.ltb_spec 1 num), (Nat.ltb_spec 0 (num - 1)); auto; lia. }
  rewrite E; simpl.
  destruct (Nat.ltb_spec 1 num) as [H|H]; rewrite !map_map.
  - do 2 f_equal. apply map_ext; intros i; ring.
  - destruct num as [|[|num]]; try lia; simpl; auto.
    f_equal; ring.
Qed.

Lemma last_map_seq {A : Type} (f : nat -> A) n d :
  last (map f (seq 0 (S n))) d = f n.
Proof.
  rewrite seq_S, map_app; simpl. apply last_last.
Qed.

Lemma grid_point_last start stop num :
  1 < num -> grid_point start stop num (num - 1) = stop.
Proof.
  intros H; unfold grid_point.
  destruct (Nat.ltb_spec 1 num); [|lia].
  assert (INR (num - 1) <> 0%R) by (apply not_0_INR; lia).
  field; assumption.
Qed.

Lemma linspace_grid start stop num :
  linspace start stop num = map (grid_point start stop num) (seq 0 num).
Proof.
  rewrite linspace_raw; simpl.
  destruct (Nat.ltb_spec 1 num) as [H|H]; auto.
  destruct num as [|n]; [lia|].
  rewrite <- (grid_point_last start stop (S n) H) at 2.
  replace (S n - 1) with n by lia.
  rewrite <- (last_map_seq (grid_point start stop (S n)) n 0%R).
  symmetry; apply app_removelast_last.
  now rewrite seq_S, map_app; intros E; apply app_eq_nil in E.
Qed.

Lemma nth_map_seq {A : Type} (f : nat -> A) n i d :
  i < n -> nth i (map f (seq 0 n)) d = f i.
Proof.
  intros H.
  rewrite nth_indep with (d' := f 0) by now rewrite length_map, length_seq.
  now rewrite map_nth, seq_nth.
Qed.

Lemma probs_nth n i :
  i < n -> nth i (probs n) 0%R = grid_point 0.9999 0.0001 n i.
Proof. intros H; unfold probs; rewrite linspace_grid; now apply nth_map_seq. Qed.

Lemma thresholds_nth n i :
  i < n -> nth i (thresholds n) 0%R = logit (grid_point 0.9999 0.0001 n i).
Proof.
  intros H; unfold thresholds, probs; rewrite linspace_grid, map_map.
  now rewrite nth_map_seq.
Qed.

Lemma thresholds_length n : length (thresholds n) = n.
Proof.
  unfold thresholds, probs; rewrite linspace_grid.
  now rewrite !length_map, length_seq.
Qed.

Lemma grid_point_range n i :
  i < n ->
  (0.0001 <= grid_point 0.9999 0.0001 n i <= 0.9999)%R.
Proof.
  intros H; unfold grid_point.
  destruct (Nat.ltb_spec 1 n) as [Hn|Hn]; [|lra].
  assert (Hd : (0 < INR (n - 1))%R) by (apply lt_0_INR; lia).
  assert (Hi : (0 <= INR i <= INR (n - 1))%R).
  { split; [apply pos_INR | apply le_INR; lia]. }
  set (d := INR (n - 1)) in *; set (k := INR i) in *.
  assert (E : (0.9999 + k * ((0.0001 - 0.9999) / d) = 0.9999 - 0.9998 * (k / d))%R).
  { unfold Rdiv; set (di := (/ d)%R); nra. }
  rewrite E.
  assert (0 <= k / d <= 1)%R.
  { split.
    - apply Rmult_le_pos; [lra | left; now apply Rinv_0_lt_compat].
    - apply Rmult_le_reg_r with d; [assumption|].
      unfold Rdiv; rewrite Rmult_assoc, Rinv_l by lra; lra. }
  lra.
Qed.

Lemma grid_point_decreasing n i j :
  i < j -> j < n ->
  (grid_point 0.9999 0.0001 n j < grid_point 0.9999 0.0001 n i)%R.
Proof.
  intros Hij Hj; unfold grid_point.
  destruct (Nat.ltb_spec 1 n) as [Hn|Hn]; [|lia].
  assert (Hd : (0 < INR (n - 1))%R) by (apply lt_0_INR; lia).
  assert (Hk : (INR i < INR j)%R) by now apply lt_INR.
  set (d := INR (n - 1)) in *.
  assert (Hs : ((0.0001 - 0.9999) / d < 0)%R).
  { unfold Rdiv. apply Rmult_neg_pos; [lra | now apply Rinv_0_lt_compat]. }
  nra.
Qed.

Lemma logit_increasing p q :
  (0 < p)%R -> (p < q)%R -> (q < 1)%R -> (logit p < logit q)%R.
Proof.
  intros Hp Hpq Hq; unfold logit.
  assert (ln p < ln q)%R by (apply ln_increasing; lra).
  assert (ln (1 - q) < ln (1 - p))%R by (apply ln_increasing; lra).
  lra.
Qed.

Lemma thresholds_nth_decreasing n i j :
  i < j -> j < n ->
  (nth j (thresholds n) 0 < nth i (thresholds n) 0)%R.
Proof.
  intros Hij Hj.
  rewrite !thresholds_nth by lia.
  pose proof (grid_point_range _ _ Hj) as Rj.
  assert (Hi : i < n) by lia.
  pose proof (grid_point_range _ _ Hi) as Ri.
  apply logit_increasing; try lra.
  now apply grid_point_decreasing.
Qed.

(** C4. For a positive [num_thresholds] the ladder has [num_thresholds]
    entries; entry [i] is the logit [ln p - ln (1 - p)] of the [i]-th point
    [p] of the uniform grid that starts at 0.9999 and, when there is more
    than one point, ends at 0.0001; and the entries strictly decrease with
    the index. *)
Theorem thresholds_strictly_decreasing (num_thresholds : nat) :
  0 < num_thresholds ->
  length (thresholds num_thresholds) = num_thresholds /\
  (forall i, i < num_thresholds ->
     let p := nth i (probs num_thresholds) 0%R in
     p = grid_point 0.9999 0.0001 num_thresholds i /\
     nth i (thresholds num_thresholds) 0%R = (ln p - ln (1 - p))%R) /\
  nth 0 (probs num_thresholds) 0%R = 0.9999%R /\
  (1 < num_thresholds ->
     nth (num_thresholds - 1) (probs num_thresholds) 0%R = 0.0001%R) /\
  (forall i j, i < j -> j < num_thresholds ->
     (nth j (thresholds num_thresholds) 0 < nth i (thresholds num_thresholds) 0)%R).
Proof.
  intros Hn; split; [apply thresholds_length|]; split; [|split; [|split]].
  - intros i Hi; simpl; rewrite probs_nth by assumption.
    split; [reflexivity|]. now rewrite thresholds_nth.
  - rewrite probs_nth by assumption; unfold grid_point.
    destruct (1 <? num_thresholds); simpl; lra.
  - intros H1; rewrite probs_nth by lia. now apply grid_point_last.
  - intros i j; apply thresholds_nth_decreasing.
Qed.

Lemma thresholds_strictly_decreasing_witness :
  0 < 3 /\
  length (thresholds 3) = 3 /\
  (forall i, i < 3 ->
     let p := nth i (probs 3) 0%R in
     p = grid_point 0.9999 0.0001 3 i /\
     nth i (thresholds 3) 0%R = (ln p - ln (1 - p))%R) /\
  nth 0 (probs 3) 0%R = 0.9999%R /\
  (1 < 3 -> nth (3 - 1) (probs 3) 0%R = 0.0001%R) /\
  (forall i j, i < j -> j < 3 ->
     (nth j (thresholds 3) 0 < nth i (thresholds 3) 0)%R).
Proof.
  split; [lia|]. apply (thresholds_strictly_decreasing 3); lia.
Defined.

(** ** Vectors and loops *)

Lemma set_item_length v i x : length (set_item v i x) = length v.
Proof.
  revert i; induction v as [|y v IH]; intros [|i]; simpl; auto.
Qed.

Lemma nth_set_item v i x j :
  i < length v ->
  nth j (set_item v i x) 0 = if j =? i then x else nth j v 0.
Proof.
  revert i j; induction v as [|y v IH]; intros [|i] [|j]; simpl; intros H;
    try lia; auto.
  apply IH; lia.
Qed.

Lemma item_of_nat v i : item v (Z.of_nat i) = nth i v 0.
Proof.
  unfold item. destruct (Z.ltb_spec (Z.of_nat i) 0); [lia|].
  now rewrite Nat2Z.id.
Qed.

Lemma item_pred v i : 0 < i -> item v (Z.of_nat i - 1) = nth (i - 1) v 0.
Proof.
  intros H; replace (Z.of_nat i - 1)%Z with (Z.of_nat (i - 1)) by lia.
  apply item_of_nat.
Qed.

Lemma item_minus_one v : item v (Z.of_nat 0 - 1) = nth (length v - 1) v 0.
Proof.
  unfold item; simpl. f_equal; lia.
Qed.

Lemma nth_zeros n i : nth i (zeros n) 0 = 0.
Proof.
  unfold zeros; destruct (Nat.lt_ge_cases i n).
  - now apply nth_repeat_lt.
  - apply nth_overflow; now rewrite repeat_length.
Qed.

Lemma zeros_length n : length (zeros n) = n.
Proof. apply repeat_length. Qed.

Lemma for_each_seq {S : Type} (body : S -> nat -> option S)
  (P : nat -> S -> Prop) m :
  forall k st,
    (forall i s, k <= i < k + m -> P i s ->
       exists s', body s i = Some s' /\ P (Datatypes.S i) s') ->
    P k st ->
    exists st', for_each body (seq k m) st = Some st' /\ P (k + m) st'.
Proof.
  induction m as [|m IH]; intros k st Hstep H0; simpl.
  - exists st; now rewrite Nat.add_0_r.
  - destruct (Hstep k st ltac:(lia) H0) as (s' & E & H1).
    rewrite E; simpl.
    replace (k + Datatypes.S m) with (Datatypes.S k + m) by lia.
    apply IH; auto.
    intros i s Hi; apply Hstep; lia.
Qed.

Lemma for_each_fails {S A : Type} (body : S -> A -> option S) x xs st :
  (forall s, body s x = None) -> for_each body (x :: xs) st = None.
Proof. intros H; simpl; now rewrite H. Qed.

(** ** The two branches of [compute_FROC] *)

Lemma lesion_loop lesions seg i ids :
  forall TPs, i < length TPs ->
    let TPs' := fold_left (lesion_step lesions seg i) ids TPs in
    length TPs' = length TPs /\
    forall j, nth j TPs' 0 =
              if j =? i
              then nth i TPs 0 + length (filter (detected lesions seg) ids)
              else nth j TPs 0.
Proof.
  induction ids as [|id ids IH]; intros TPs Hi; cbn [fold_left filter].
  - split; auto. intros j; destruct (Nat.eqb_spec j i); subst; simpl; auto.
  - assert (Hstep : lesion_step lesions seg i TPs id =
                    if detected lesions seg id
                    then set_item TPs i (item TPs (Z.of_nat i) + 1)
                    else TPs) by reflexivity.
    rewrite Hstep.
    destruct (detected lesions seg id); cbn [length]; [|now apply IH].
    destruct (IH (set_item TPs i (item TPs (Z.of_nat i) + 1))) as [L N].
    { now rewrite set_item_length. }
    rewrite set_item_length in L; split; [assumption|].
    intros j; rewrite N, !nth_set_item, item_of_nat, Nat.eqb_refl by assumption.
    destruct (j =? i); lia.
Qed.

Lemma post_segmentation_at logits label n i :
  same_shape logits label = true ->
  post logits label (nth i (thresholds n) 0%R) =
  Some (segmentation_at logits label n i).
Proof. intros H; now rewrite post_unfold, H. Qed.

Lemma vector_ext (v : list nat) (f : nat -> nat) n :
  length v = n -> (forall j, j < n -> nth j v 0 = f j) ->
  v = map f (seq 0 n).
Proof.
  intros L H; apply nth_ext with (d := 0) (d' := 0).
  - now rewrite length_map, length_seq.
  - intros j Hj; rewrite nth_map_seq by lia. apply H; lia.
Qed.

(** An image with lesions: [FPs] stays zero, [TPs[i]] is the number of
    lesions detected at position [i]. *)
Lemma compute_FROC_lesions logits label n acceptance_ratio :
  same_shape logits label = true ->
  Np.max label = Some 255%Z ->
  compute_FROC logits label n acceptance_ratio =
  let (lesions, num_lesions) := Ndimage.label (eq_Z label 255) structure_mask in
  Some (zeros n,
        map (fun i => tp_count lesions num_lesions (segmentation_at logits label n i))
            (seq 0 n),
        if n =? 0 then 0 else num_lesions).
Proof.
  intros Hs Hm; unfold compute_FROC.
  destruct (Ndimage.label (eq_Z label 255) structure_mask) as [lesions num] eqn:El.
  set (tp := fun i => tp_count lesions num (segmentation_at logits label n i)).
  set (P := fun (k : nat) (st : counts) =>
    c_FPs st = zeros n /\ length (c_TPs st) = n /\
    (forall j, nth j (c_TPs st) 0 = if j <? k then tp j else 0) /\
    c_num_lesions st = if k =? 0 then 0 else num).
  destruct (for_each_seq (threshold_step logits label (thresholds n)) P n 0
              (mk_counts (zeros n) (zeros n) 0)) as (st & E & HP).
  - intros i s Hi (HF & HL & HT & HN).
    unfold threshold_step.
    rewrite post_segmentation_at, Hm by assumption; simpl.
    rewrite El.
    eexists; split; [reflexivity|].
    destruct (lesion_loop lesions (segmentation_at logits label n i) i
                (seq 1 num) (c_TPs s)) as [L N]; [lia|].
    unfold P; simpl; repeat split; auto; [congruence|].
    intros j; rewrite N, !HT.
    destruct (Nat.eqb_spec j i) as [->|Hne].
    + rewrite Nat.ltb_irrefl.
      destruct (Nat.ltb_spec i (S i)); [|lia]. reflexivity.
    + destruct (Nat.ltb_spec j i), (Nat.ltb_spec j (S i)); auto; lia.
  - unfold P; simpl; repeat split; auto using zeros_length.
    intros j; now rewrite nth_zeros.
  - rewrite E; simpl. destruct HP as (HF & HL & HT & HN); simpl in *.
    rewrite HF, HN; do 3 f_equal.
    apply vector_ext; auto.
    intros j Hj; rewrite HT. now destruct (Nat.ltb_spec j n); [|lia].
Qed.

(** An image without lesions: [TPs] stays zero and so does the number of
    lesions; [FPs[i]] is the running maximum of the numbers of groups. *)
Lemma compute_FROC_normal logits label n acceptance_ratio m :
  same_shape logits label = true ->
  Np.max label = Some m -> m <> 255%Z ->
  compute_FROC logits label n acceptance_ratio =
  Some (map (clamped (fun i => blob_count (segmentation_at logits label n i)))
            (seq 0 n),
        zeros n, 0).
Proof.
  intros Hs Hm Hne; unfold compute_FROC.
  set (raw := fun i => blob_count (segmentation_at logits label n i)).
  set (P := fun (k : nat) (st : counts) =>
    c_TPs st = zeros n /\ c_num_lesions st = 0 /\ length (c_FPs st) = n /\
    forall j, nth j (c_FPs st) 0 = if j <? k then clamped raw j else 0).
  destruct (for_each_seq (threshold_step logits label (thresholds n)) P n 0
              (mk_counts (zeros n) (zeros n) 0)) as (st & E & HP).
  - intros i s Hi (HT & HN & HL & HF).
    unfold threshold_step.
    rewrite post_segmentation_at, Hm by assumption; simpl.
    apply Z.eqb_neq in Hne; rewrite Hne.
    fold (blob_count (segmentation_at logits label n i)); fold (raw i).
    eexists; split; [reflexivity|].
    rewrite !item_of_nat.
    assert (Hz : nth i (c_FPs s) 0 = 0).
    { rewrite HF. now rewrite Nat.ltb_irrefl. }
    rewrite Hz; simpl.
    set (F1 := set_item (c_FPs s) i (raw i)).
    assert (L1 : length F1 = n) by (unfold F1; now rewrite set_item_length).
    assert (N1 : forall j, nth j F1 0 = if j =? i then raw i else nth j (c_FPs s) 0).
    { intros j; unfold F1; apply nth_set_item; lia. }
    assert (Hi1 : nth i F1 0 = raw i) by now rewrite N1, Nat.eqb_refl.
    rewrite Hi1.
    destruct i as [|i'].
    + (* the first position: compared with the last entry *)
      rewrite item_minus_one, L1, N1.
      assert (Hlast : (if n - 1 =? 0 then raw 0 else nth (n - 1) (c_FPs s) 0)
                      <= raw 0).
      { destruct (n - 1 =? 0) eqn:E0; [lia|].
        rewrite HF; simpl; lia. }
      destruct (Nat.ltb_spec (raw 0)
                  (if n - 1 =? 0 then raw 0 else nth (n - 1) (c_FPs s) 0));
        [lia|].
      unfold P; simpl; repeat split; auto.
      intros j; rewrite N1, HF.
      destruct j; simpl; auto.
    + rewrite item_pred by lia.
      replace (S i' - 1) with i' by lia.
      assert (Hp : nth i' F1 0 = clamped raw i').
      { rewrite N1, HF.
        destruct (Nat.eqb_spec i' (S i')); [lia|].
        now destruct (Nat.ltb_spec i' (S i')); [|lia]. }
      rewrite Hp.
      destruct (Nat.ltb_spec (raw (S i')) (clamped raw i')) as [Hlt|Hge];
        unfold P; simpl; repeat split; auto.
      * now rewrite set_item_length.
      * intros j; rewrite nth_set_item, N1, HF by lia.
        destruct (Nat.eqb_spec j (S i')) as [->|Hj].
        -- destruct (Nat.ltb_spec (S i') (S (S i'))); [|lia]. simpl; lia.
        -- destruct (Nat.ltb_spec j (S i')), (Nat.ltb_spec j (S (S i'))); auto; lia.
      * intros j; rewrite N1, HF.
        destruct (Nat.eqb_spec j (S i')) as [->|Hj].
        -- destruct (Nat.ltb_spec (S i') (S (S i'))); [|lia]. simpl; lia.
        -- destruct (Nat.ltb_spec j (S i')), (Nat.ltb_spec j (S (S i'))); auto; lia.
  - unfold P; simpl; repeat split; auto using zeros_length.
    intros j; now rewrite nth_zeros.
  - rewrite E; simpl. destruct HP as (HT & HN & HL & HF); simpl in *.
    rewrite HT, HN; do 3 f_equal.
    apply vector_ext; auto.
    intros j Hj; rewrite HF. now destruct (Nat.ltb_spec j n); [|lia].
Qed.

(** ** [label.max()] *)

Lemma fold_max_spec xs : forall x,
  In (fold_left Z.max xs x) (x :: xs) /\
  forall v, In v (x :: xs) -> (v <= fold_left Z.max xs x)%Z.
Proof.
  induction xs as [|y xs IH]; intros x; simpl.
  - split; auto. intros v [->|[]]; lia.
  - destruct (IH (Z.max x y)) as [HI HM]; split.
    + destruct HI as [E|HI]; [|auto].
      rewrite <- E. destruct (Z.max_spec x y) as [[_ ->]|[_ ->]]; auto.
    + intros v [->|[->|Hv]].
      * etransitivity; [|apply HM; now left]. lia.
      * etransitivity; [|apply HM; now left]. lia.
      * apply HM; now right.
Qed.

Lemma max_spec label m :
  Np.max label = Some m ->
  In m (concat label) /\ forall v, In v (concat label) -> (v <= m)%Z.
Proof.
  unfold Np.max; destruct (concat label) as [|x xs]; [easy|].
  intros E; injection E as <-. apply fold_max_spec.
Qed.

Lemma max_defined label :
  concat label <> [] -> exists m, Np.max label = Some m.
Proof.
  unfold Np.max; destruct (concat label); [easy|]. intros _; eauto.
Qed.

Lemma is_uint8_le label :
  is_uint8 label = true -> forall v, In v (concat label) -> (v <= 255)%Z.
Proof.
  unfold is_uint8; rewrite forallb_forall; intros H v Hv.
  specialize (H v Hv); apply andb_true_iff in H as [_ H].
  now apply Z.leb_le.
Qed.

(** With 8-bit labels the test [label.max() == 255] asks for a 255 pixel. *)
Lemma max_255 label :
  (forall v, In v (concat label) -> (v <= 255)%Z) ->
  In 255%Z (concat label) -> Np.max label = Some 255%Z.
Proof.
  intros Hb Hin.
  destruct (max_defined label) as [m Hm].
  { intros E; now rewrite E in Hin. }
  destruct (max_spec label m Hm) as [Hi Hle].
  specialize (Hb m Hi); specialize (Hle 255%Z Hin).
  rewrite Hm; f_equal; lia.
Qed.

Lemma max_not_255 label :
  concat label <> [] -> ~ In 255%Z (concat label) ->
  exists m, Np.max label = Some m /\ m <> 255%Z.
Proof.
  intros Hne Hnot; destruct (max_defined label Hne) as [m Hm].
  exists m; split; [assumption|].
  intros ->; apply Hnot. now apply max_spec.
Qed.

(** ** The per-image result *)

(** C5. On a heatmap and an 8-bit label of one shape (the label not empty),
    [compute_FROC] returns; when the label holds a 255 pixel the returned
    [FPs] is zero at every position, and when it holds none the returned
    [TPs] is zero at every position and the number of lesions is 0. *)
Theorem FPs_only_without_lesions (logits : image R) (label : image Z)
  (num_thresholds : nat) (acceptance_ratio : Q) :
  same_shape logits label = true ->
  concat label <> [] ->
  is_uint8 label = true ->
  exists FPs TPs num_lesions,
    compute_FROC logits label num_thresholds acceptance_ratio
      = Some (FPs, TPs, num_lesions) /\
    (In 255%Z (concat label) -> FPs = zeros num_thresholds) /\
    (~ In 255%Z (concat label) ->
       TPs = zeros num_thresholds /\ num_lesions = 0).
Proof.
  intros Hs Hne Hu; pose proof (is_uint8_le label Hu) as Hb.
  destruct (in_dec Z.eq_dec 255%Z (concat label)) as [Hin|Hnot].
  - rewrite compute_FROC_lesions by auto using max_255.
    destruct (Ndimage.label (eq_Z label 255) structure_mask) as [lesions num].
    do 3 eexists; split; [reflexivity|]; split; [reflexivity|easy].
  - destruct (max_not_255 label Hne Hnot) as (m & Hm & Hd).
    rewrite compute_FROC_normal with (m := m) by assumption.
    do 3 eexists; split; [reflexivity|]; split; [easy|auto].
Qed.

Lemma FPs_only_without_lesions_witness :
  same_shape logits_2x2 label_2x2 = true /\
  concat label_2x2 <> [] /\
  is_uint8 label_2x2 = true /\
  exists FPs TPs num_lesions,
    compute_FROC logits_2x2 label_2x2 3 (1 # 10) = Some (FPs, TPs, num_lesions) /\
    (In 255%Z (concat label_2x2) -> FPs = zeros 3) /\
    (~ In 255%Z (concat label_2x2) -> TPs = zeros 3 /\ num_lesions = 0).
Proof.
  assert (H1 : same_shape logits_2x2 label_2x2 = true) by reflexivity.
  assert (H2 : concat label_2x2 <> []) by (simpl; discriminate).
  assert (H3 : is_uint8 label_2x2 = true) by reflexivity.
  repeat split; auto.
  apply (FPs_only_without_lesions logits_2x2 label_2x2 3 (1 # 10) H1 H2 H3).
Defined.

Lemma clamped_step raw i : clamped raw i <= clamped raw (S i).
Proof. simpl; lia. Qed.

Lemma clamped_monotone raw i j : i <= j -> clamped raw i <= clamped raw j.
Proof.
  induction 1 as [|j _ IH]; auto.
  etransitivity; [exact IH | apply clamped_step].
Qed.

(** C2. On an image whose label holds no 255 pixel, [FPs] is filled in
    ladder order: position 0 holds the number of groups of 255-pixels of
    the first segmentation, unclamped; position [i > 0] holds the larger of
    the number of groups at [i] and the (already clamped) entry at [i - 1];
    so the vector never decreases along the ladder. *)
Theorem FPs_running_maximum (logits : image R) (label : image Z)
  (num_thresholds : nat) (acceptance_ratio : Q) :
  same_shape logits label = true ->
  concat label <> [] ->
  ~ In 255%Z (concat label) ->
  exists FPs TPs num_lesions,
    compute_FROC logits label num_thresholds acceptance_ratio
      = Some (FPs, TPs, num_lesions) /\
    length FPs = num_thresholds /\
    (forall i, i < num_thresholds ->
       exists segmentation,
         post logits label (nth i (thresholds num_thresholds) 0%R)
           = Some segmentation /\
         let num_FPs :=
           snd (Ndimage.label (eq_Z segmentation 255) structure_mask) in
         nth i FPs 0 = match i with
                       | O => num_FPs
                       | S i' => Nat.max num_FPs (nth i' FPs 0)
                       end) /\
    (forall i j, i <= j -> j < num_thresholds -> nth i FPs 0 <= nth j FPs 0).
Proof.
  intros Hs Hne Hnot.
  destruct (max_not_255 label Hne Hnot) as (m & Hm & Hd).
  rewrite compute_FROC_normal with (m := m) by assumption.
  do 3 eexists; split; [reflexivity|].
  set (raw := fun i => blob_count (segmentation_at logits label num_thresholds i)).
  split; [now rewrite length_map, length_seq|]; split.
  - intros i Hi; exists (segmentation_at logits label num_thresholds i).
    split; [now apply post_segmentation_at|].
    simpl; rewrite nth_map_seq by assumption.
    destruct i as [|i']; [reflexivity|].
    rewrite nth_map_seq by lia. reflexivity.
  - intros i j Hij Hj; rewrite !nth_map_seq by lia.
    now apply clamped_monotone.
Qed.

Lemma FPs_running_maximum_witness :
  same_shape logits_2x2 label_normal_2x2 = true /\
  concat label_normal_2x2 <> [] /\
  ~ In 255%Z (concat label_normal_2x2) /\
  exists FPs TPs num_lesions,
    compute_FROC logits_2x2 label_normal_2x2 3 (1 # 10)
      = Some (FPs, TPs, num_lesions) /\
    length FPs = 3 /\
    (forall i, i < 3 ->
       exists segmentation,
         post logits_2x2 label_normal_2x2 (nth i (thresholds 3) 0%R)
           = Some segmentation /\
         let num_FPs :=
           snd (Ndimage.label (eq_Z segmentation 255) structure_mask) in
         nth i FPs 0 = match i with
                       | O => num_FPs
                       | S i' => Nat.max num_FPs (nth i' FPs 0)
                       end) /\
    (forall i j, i <= j -> j < 3 -> nth i FPs 0 <= nth j FPs 0).
Proof.
  assert (H1 : same_shape logits_2x2 label_normal_2x2 = true) by reflexivity.
  assert (H2 : concat label_normal_2x2 <> []) by (simpl; discriminate).
  assert (H3 : ~ In 255%Z (concat label_normal_2x2)).
  { simpl; intros H; repeat destruct H as [H|H]; try discriminate; easy. }
  repeat split; auto.
  apply (FPs_running_maximum logits_2x2 label_normal_2x2 3 (1 # 10) H1 H2 H3).
Defined.

(** ** The acceptance test *)

Lemma accepted_iff overlap area :
  accepted overlap area = true <-> 0 < area /\ area <= 10 * overlap.
Proof.
  unfold accepted, ACCEPTANCE_RATIO; rewrite Qle_bool_iff.
  destruct area as [|a].
  - split; [|lia]. intros H; exfalso; revert H.
    unfold Qdiv, Qinv; simpl. rewrite Qmult_0_r. easy.
  - split.
    + intros H; split; [lia|].
      apply Qle_shift_div_r in H.
      * unfold Qle, Qmult, inject_Z in H; simpl in H. lia.
      * unfold Qlt, inject_Z; simpl; lia.
    + intros [_ H]. apply Qle_shift_div_l.
      * unfold Qlt, inject_Z; simpl; lia.
      * unfold Qle, Qmult, inject_Z; simpl Qnum; simpl Qden. lia.
Qed.

Lemma accepted_monotone o1 o2 area :
  o1 <= o2 -> accepted o1 area = true -> accepted o2 area = true.
Proof. rewrite !accepted_iff; lia. Qed.

(** ** Looser thresholds only add positive pixels *)

Lemma map_zip_with {A B C D : Type} (h : C -> D) (f : A -> B -> C) xs ys :
  map h (zip_with f xs ys) = zip_with (fun x y => h (f x y)) xs ys.
Proof.
  revert ys; induction xs as [|x xs IH]; intros [|y ys]; simpl; auto.
  now rewrite IH.
Qed.

Lemma Forall2_zip_with {A B C : Type} (Rel : C -> C -> Prop)
  (f g : A -> B -> C) xs ys :
  (forall x y, Rel (f x y) (g x y)) ->
  Forall2 Rel (zip_with f xs ys) (zip_with g xs ys).
Proof.
  intros H; revert ys; induction xs as [|x xs IH]; intros [|y ys]; simpl; auto.
Qed.

Lemma sum_cons row (a : image bool) :
  Np.sum (row :: a) = length (filter (fun b : bool => b) row) + Np.sum a.
Proof. unfold Np.sum; simpl. now rewrite filter_app, length_app. Qed.

Lemma count_and_monotone (m s s' : list bool) :
  Forall2 below s s' ->
  length (filter (fun b : bool => b) (zip_with andb m s)) <=
  length (filter (fun b : bool => b) (zip_with andb m s')).
Proof.
  intros H; revert m; induction H as [|x y s s' Hxy _ IH]; intros [|b m];
    simpl; auto.
  specialize (IH m).
  destruct b, x; simpl; try (rewrite Hxy by reflexivity); simpl; try lia.
  destruct y; simpl; lia.
Qed.

Lemma sum_and_monotone (m s s' : image bool) :
  Forall2 (Forall2 below) s s' ->
  Np.sum (logical_and m s) <= Np.sum (logical_and m s').
Proof.
  unfold logical_and.
  intros H; revert m; induction H as [|x y s s' Hxy _ IH]; intros [|row m];
    simpl; auto.
  rewrite !sum_cons.
  pose proof (count_and_monotone row x y Hxy). specialize (IH m). lia.
Qed.

Lemma post_pixel_monotone t t' x l :
  (t' <= t)%R ->
  below (Z.eqb (post_pixel t x l) 255) (Z.eqb (post_pixel t' x l) 255).
Proof.
  intros Ht; unfold below, post_pixel.
  destruct (Z.eqb l 0); [easy|].
  destruct (Rgeb x t) eqn:E; [|easy].
  apply Rgeb_spec in E. rewrite Rgeb_true by lra. reflexivity.
Qed.

Lemma thresholds_monotone n i j :
  i <= j -> j < n ->
  (nth j (thresholds n) 0 <= nth i (thresholds n) 0)%R.
Proof.
  intros Hij Hj.
  destruct (Nat.eq_dec i j) as [->|Hne]; [lra|].
  left. apply thresholds_nth_decreasing; lia.
Qed.

Lemma overlap_area_monotone logits label n lesions id i j :
  i <= j -> j < n ->
  overlap_area lesions (segmentation_at logits label n i) id <=
  overlap_area lesions (segmentation_at logits label n j) id.
Proof.
  intros Hij Hj; unfold overlap_area; apply sum_and_monotone.
  unfold eq_Z, segmentation_at.
  rewrite !map_zip_with.
  apply Forall2_zip_with; intros row1 row2.
  rewrite !map_zip_with.
  apply Forall2_zip_with; intros x l.
  apply post_pixel_monotone. now apply thresholds_monotone.
Qed.

Lemma filter_length_mono {A : Type} (p q : A -> bool) l :
  (forall x, p x = true -> q x = true) ->
  length (filter p l) <= length (filter q l).
Proof.
  intros H; induction l as [|x l IH]; simpl; auto.
  destruct (p x) eqn:E.
  - rewrite (H x E); simpl; lia.
  - destruct (q x); simpl; lia.
Qed.

Lemma tp_count_monotone logits label n lesions num i j :
  i <= j -> j < n ->
  tp_count lesions num (segmentation_at logits label n i) <=
  tp_count lesions num (segmentation_at logits label n j).
Proof.
  intros Hij Hj; unfold tp_count; apply filter_length_mono.
  intros id; unfold detected; apply accepted_monotone.
  now apply overlap_area_monotone.
Qed.

(** C10. On an image whose 8-bit label holds a 255 pixel, [TPs] never
    decreases along the ladder. *)
Theorem TPs_non_decreasing (logits : image R) (label : image Z)
  (num_thresholds : nat) (acceptance_ratio : Q) :
  same_shape logits label = true ->
  is_uint8 label = true ->
  In 255%Z (concat label) ->
  exists FPs TPs num_lesions,
    compute_FROC logits label num_thresholds acceptance_ratio
      = Some (FPs, TPs, num_lesions) /\
    length TPs = num_thresholds /\
    forall i j, i <= j -> j < num_thresholds -> nth i TPs 0 <= nth j TPs 0.
Proof.
  intros Hs Hu Hin; pose proof (is_uint8_le label Hu) as Hb.
  rewrite compute_FROC_lesions by auto using max_255.
  destruct (Ndimage.label (eq_Z label 255) structure_mask) as [lesions num].
  do 3 eexists; split; [reflexivity|].
  split; [now rewrite length_map, length_seq|].
  intros i j Hij Hj; rewrite !nth_map_seq by lia.
  now apply tp_count_monotone.
Qed.

Lemma TPs_non_decreasing_witness :
  same_shape logits_2x2 label_2x2 = true /\
  is_uint8 label_2x2 = true /\
  In 255%Z (concat label_2x2) /\
  exists FPs TPs num_lesions,
    compute_FROC logits_2x2 label_2x2 3 (1 # 10) = Some (FPs, TPs, num_lesions) /\
    length TPs = 3 /\
    forall i j, i <= j -> j < 3 -> nth i TPs 0 <= nth j TPs 0.
Proof.
  assert (H1 : same_shape logits_2x2 label_2x2 = true) by reflexivity.
  assert (H2 : is_uint8 label_2x2 = true) by reflexivity.
  assert (H3 : In 255%Z (concat label_2x2)) by (simpl; auto).
  repeat split; auto.
  apply (TPs_non_decreasing logits_2x2 label_2x2 3 (1 # 10) H1 H2 H3).
Defined.

(** ** Heatmaps with two levels *)

Lemma ln_bounds q : (0.0001 <= q < 1)%R -> (-10000 < ln q < 0)%R.
Proof.
  intros [Hl Hu]; split.
  - apply Rlt_le_trans with (ln 0.0001).
    + rewrite <- (ln_exp (-10000)).
      apply ln_increasing; [apply exp_pos|].
      replace (-10000)%R with (Ropp 10000) by lra.
      rewrite exp_Ropp.
      assert (H : (10001 < exp 10000)%R).
      { pose proof (exp_ineq1 10000 ltac:(lra)); lra. }
      apply Rlt_trans with (/ 10001)%R; [|lra].
      apply Rinv_lt_contravar; [|assumption].
      apply Rmult_lt_0_compat; lra.
    + destruct Hl as [Hl| <-]; [|lra].
      left; apply ln_increasing; lra.
  - rewrite <- ln_1. apply ln_increasing; lra.
Qed.

Lemma thresholds_bounds n i :
  i < n -> (-10000 < nth i (thresholds n) 0 < 10000)%R.
Proof.
  intros H; rewrite thresholds_nth by assumption; unfold logit.
  pose proof (grid_point_range n i H) as Hp.
  set (p := grid_point 0.9999 0.0001 n i) in *.
  pose proof (ln_bounds p ltac:(lra)).
  pose proof (ln_bounds (1 - p) ltac:(lra)).
  lra.
Qed.

Lemma segmentation_at_heat mask label n i :
  i < n -> segmentation_at (heat mask) label n i = segment_mask mask label.
Proof.
  intros H; unfold segmentation_at, heat, segment_mask.
  pose proof (thresholds_bounds n i H) as Ht.
  rewrite zip_with_map_l; apply zip_with_ext; intros row1 row2.
  rewrite zip_with_map_l; apply zip_with_ext; intros b l.
  unfold post_pixel; destruct (Z.eqb l 0); auto.
  destruct b; [rewrite Rgeb_true | rewrite Rgeb_false]; auto; lra.
Qed.

Lemma same_shape_heat {B : Type} mask (label : image B) :
  same_shape (heat mask) label = same_shape mask label.
Proof. unfold same_shape, heat; now rewrite shape_map. Qed.

Lemma clamped_ext raw raw' i :
  (forall j, j <= i -> raw j = raw' j) -> clamped raw i = clamped raw' i.
Proof.
  induction i as [|i IH]; intros H; simpl.
  - apply H; lia.
  - rewrite H, IH by auto. reflexivity.
Qed.

Lemma compute_FROC_heat_normal mask label n r m :
  same_shape mask label = true ->
  Np.max label = Some m -> m <> 255%Z ->
  compute_FROC (heat mask) label n r =
  Some (map (clamped (fun _ => blob_count (segment_mask mask label))) (seq 0 n),
        zeros n, 0).
Proof.
  intros Hs Hm Hne.
  rewrite compute_FROC_normal with (m := m); auto;
    [|now rewrite same_shape_heat].
  do 3 f_equal. apply map_ext_in; intros i Hi; apply in_seq in Hi.
  apply clamped_ext; intros j Hj.
  rewrite segmentation_at_heat by lia. reflexivity.
Qed.

Lemma compute_FROC_heat_lesions mask label n r :
  same_shape mask label = true ->
  Np.max label = Some 255%Z ->
  compute_FROC (heat mask) label n r =
  let (lesions, num_lesions) := Ndimage.label (eq_Z label 255) structure_mask in
  Some (zeros n,
        map (fun _ => tp_count lesions num_lesions (segment_mask mask label))
            (seq 0 n),
        if n =? 0 then 0 else num_lesions).
Proof.
  intros Hs Hm.
  rewrite compute_FROC_lesions; auto; [|now rewrite same_shape_heat].
  destruct (Ndimage.label (eq_Z label 255) structure_mask) as [lesions num].
  do 3 f_equal. apply map_ext_in; intros i Hi; apply in_seq in Hi.
  rewrite segmentation_at_heat by lia. reflexivity.
Qed.

(** ** The caller's [acceptance_ratio] *)

(** C1, at a concrete input.  The label has one lesion of area 5 and the
    segmentation covers 1 pixel of it; a caller that asks for half of the
    lesion to be covered still gets it counted, since a fifth is more than
    the constant [ACCEPTANCE_RATIO]. *)
Theorem caller_ratio_not_applied :
  let segmentation := segment_mask row_mask row_label in
  let lesions := fst (Ndimage.label (eq_Z row_label 255) structure_mask) in
  post (heat row_mask) row_label (nth 0 (thresholds 1) 0%R) = Some segmentation /\
  Ndimage.label (eq_Z row_label 255) structure_mask = ([[1; 1; 1; 1; 1]], 1) /\
  lesion_area lesions 1 = 5 /\
  overlap_area lesions segmentation 1 = 1 /\
  Qle_bool (1 # 2) (inject_Z 1 / inject_Z 5) = false /\
  compute_FROC (heat row_mask) row_label 1 (1 # 2) = Some ([0], [1], 1).
Proof.
  intros segmentation lesions; subst segmentation lesions.
  split; [|split; [|split; [|split; [|split]]]].
  - rewrite post_segmentation_at by reflexivity.
    now rewrite segmentation_at_heat by lia.
  - vm_compute; reflexivity.
  - vm_compute; reflexivity.
  - vm_compute; reflexivity.
  - vm_compute; reflexivity.
  - rewrite compute_FROC_lesions by reflexivity.
    cbn [seq map]. rewrite segmentation_at_heat by lia.
    vm_compute; reflexivity.
Qed.

(** ** Positions of an array *)

Lemma shape_length {A : Type} (a : image A) : length (shape a) = length a.
Proof. apply length_map. Qed.

Lemma shape_nth {A : Type} (a : image A) r :
  nth r (shape a) 0 = length (nth r a []).
Proof.
  unfold shape. change 0 with (length (@nil A)). apply map_nth.
Qed.

Lemma inside_shape {A B : Type} (a : image A) (b : image B) r c :
  shape a = shape b -> inside a r c -> inside b r c.
Proof.
  unfold inside; intros H [Hr Hc].
  rewrite <- shape_length, <- shape_nth, <- H, shape_length, shape_nth.
  auto.
Qed.

Lemma in_coords {A : Type} (a : image A) r c :
  In (r, c) (Ndimage.coords a) <-> inside a r c.
Proof.
  unfold Ndimage.coords, inside; rewrite in_flat_map; split.
  - intros (r' & Hr & Hc). apply in_map_iff in Hc as (c' & E & Hc).
    injection E as <- <-. apply in_seq in Hr, Hc. lia.
  - intros [Hr Hc]; exists r; split; [apply in_seq; lia|].
    apply in_map_iff; exists c; split; auto. apply in_seq; lia.
Qed.

Lemma set_item_nth_same v i x d :
  i < length v -> nth i (set_item v i x) d = x.
Proof.
  revert i; induction v as [|y v IH]; intros [|i]; simpl; intros H;
    try lia; auto. apply IH; lia.
Qed.

Lemma set_item_nth_other v i j x d :
  i <> j -> nth j (set_item v i x) d = nth j v d.
Proof.
  revert i j; induction v as [|y v IH]; intros [|i] [|j]; simpl; intros H;
    try lia; auto.
Qed.

Lemma set_pixel_shape a r c v :
  shape (Ndimage.set_pixel a r c v) = shape a.
Proof.
  revert r; induction a as [|row a IH]; intros [|r]; simpl; auto.
  - now rewrite set_item_length.
  - now rewrite IH.
Qed.

Lemma set_pixel_same a r c v :
  inside a r c -> get 0 (Ndimage.set_pixel a r c v) r c = v.
Proof.
  unfold inside, get; revert r; induction a as [|row a IH]; intros [|r];
    simpl; intros [Hr Hc]; try lia.
  - now apply set_item_nth_same.
  - apply IH; split; [lia | assumption].
Qed.

Lemma set_pixel_other a r c v r' c' :
  (r, c) <> (r', c') ->
  get 0 (Ndimage.set_pixel a r c v) r' c' = get 0 a r' c'.
Proof.
  unfold get; revert r r'; induction a as [|row a IH]; intros [|r] [|r'];
    simpl; intros H; auto.
  - apply set_item_nth_other; congruence.
  - apply IH; congruence.
Qed.

Lemma nth_const {A : Type} (row : list A) c :
  nth c (map (fun _ : A => 0) row) 0 = 0.
Proof. revert c; induction row; intros [|c]; simpl; auto. Qed.

Lemma get_full_like {A : Type} (a : image A) r c :
  get 0 (full_like a 0) r c = 0.
Proof.
  unfold get, full_like; revert r; induction a as [|row a IH]; intros [|r];
    simpl; auto using nth_const; now destruct c.
Qed.

Lemma fg_inside (input : image bool) r c :
  get false input r c = true -> inside input r c.
Proof.
  intros H. destruct (Nat.lt_ge_cases r (length input)) as [Hr|Hr].
  - destruct (Nat.lt_ge_cases c (length (nth r input []))) as [Hc|Hc].
    + split; assumption.
    + unfold get in H; rewrite (nth_overflow _ false Hc) in H; discriminate.
  - unfold get in H; rewrite (nth_overflow input [] Hr) in H.
    destruct c; discriminate.
Qed.

(** ** [ndimage.label] numbers the connected groups *)

Lemma filter_length_lt {A : Type} (p p' : A -> bool) w l :
  In w l -> p w = true -> p' w = false ->
  (forall x, p' x = true -> p x = true) ->
  length (filter p' l) < length (filter p l).
Proof.
  intros Hin Hp Hp' Himp; induction l as [|x l IH]; [easy|].
  simpl; destruct Hin as [->|Hin].
  - rewrite Hp, Hp'; simpl.
    pose proof (filter_length_mono p' p l Himp); lia.
  - specialize (IH Hin).
    destruct (p' x) eqn:E.
    + rewrite (Himp x E); simpl; lia.
    + destruct (p x); simpl; lia.
Qed.

Lemma flat_map_length_le {A B : Type} (f : A -> list B) k l :
  (forall x, length (f x) <= k) -> length (flat_map f l) <= k * length l.
Proof.
  intros H; induction l as [|x l IH]; simpl; [lia|].
  rewrite length_app. specialize (H x). lia.
Qed.

Lemma offsets_length structure : length (Ndimage.offsets structure) <= 9.
Proof.
  unfold Ndimage.offsets.
  etransitivity; [apply flat_map_length_le with (k := 3)|simpl; lia].
  intros dr.
  etransitivity; [apply flat_map_length_le with (k := 1)|simpl; lia].
  intros dc; destruct (Z.eqb _ 0); simpl; lia.
Qed.

Lemma neighbours_length structure r c :
  length (Ndimage.neighbours structure r c) <= 9.
Proof.
  unfold Ndimage.neighbours.
  etransitivity; [apply flat_map_length_le with (k := 1)|].
  - intros [dr dc]; destruct (_ || _); simpl; lia.
  - pose proof (offsets_length structure); lia.
Qed.

Section Labelling.

Variables (input : image bool) (structure : image Z).

Hypothesis adjacent_sym :
  forall p q, adjacent structure p q -> adjacent structure q p.

Local Notation "p ~> q" := (connected input structure p q) (at level 70).

Lemma connected_fg_r p q : p ~> q -> fg input q.
Proof. induction 1; auto. Qed.

Lemma connected_trans p q r : p ~> q -> q ~> r -> p ~> r.
Proof.
  intros Hpq Hqr; revert Hpq.
  induction Hqr as [q Hq|q s r _ IH Ha Hr]; intros Hpq; [assumption|].
  apply connected_step with s; auto.
Qed.

Lemma connected_cons p q r :
  fg input p -> adjacent structure p q -> q ~> r -> p ~> r.
Proof.
  intros Hp Ha Hqr; induction Hqr as [q Hq|q s r _ IH Hs Hr].
  - eapply connected_step; [apply connected_refl| |]; eauto.
  - eapply connected_step; eauto.
Qed.

Lemma connected_sym p q : p ~> q -> q ~> p.
Proof.
  induction 1 as [p Hp|p q r Hpq IH Ha Hr]; [now apply connected_refl|].
  apply connected_cons with q; auto.
Qed.

Lemma fresh_iff out p :
  Ndimage.fresh input out (fst p) (snd p) = true <-> fg input p /\ lab out p = 0.
Proof.
  unfold Ndimage.fresh, fg, lab.
  now rewrite andb_true_iff, Nat.eqb_eq.
Qed.

Lemma fg_lab_inside (out : image nat) p :
  shape out = shape input -> fg input p -> inside out (fst p) (snd p).
Proof.
  intros Hs Hp. apply inside_shape with input; auto.
  now apply fg_inside.
Qed.

Lemma lab_set_same out p v :
  shape out = shape input -> fg input p ->
  lab (Ndimage.set_pixel out (fst p) (snd p) v) p = v.
Proof.
  intros Hs Hp; unfold lab; apply set_pixel_same. now apply fg_lab_inside.
Qed.

Lemma lab_set_other out p q v :
  p <> q -> lab (Ndimage.set_pixel out (fst p) (snd p) v) q = lab out q.
Proof.
  intros H; unfold lab; apply set_pixel_other.
  destruct p, q; simpl; congruence.
Qed.

Lemma pos_eq_dec (p q : pos) : {p = q} + {p <> q}.
Proof. decide equality; apply Nat.eq_dec. Qed.

Lemma unlabelled_decreases out p v :
  shape out = shape input -> v <> 0 ->
  Ndimage.fresh input out (fst p) (snd p) = true ->
  unlabelled input (Ndimage.set_pixel out (fst p) (snd p) v)
    < unlabelled input out.
Proof.
  intros Hs Hv Hf; unfold unlabelled.
  pose proof (proj1 (fresh_iff out p) Hf) as [Hp H0].
  apply filter_length_lt with (w := p); auto.
  - destruct p as [r c]; apply in_coords. now apply fg_inside.
  - apply not_true_is_false; rewrite fresh_iff.
    rewrite lab_set_same by auto. intros [_ E]; auto.
  - intros q; rewrite !fresh_iff; intros [Hq E].
    split; [assumption|].
    destruct (pos_eq_dec p q) as [->|Hne]; [assumption|].
    now rewrite lab_set_other in E.
Qed.

(** *** Filling one group *)

Lemma flood_inv_skip out0 id seed w work out :
  Ndimage.fresh input out (fst w) (snd w) = false ->
  fg input seed ->
  flood_inv input structure out0 id seed (w :: work) out ->
  flood_inv input structure out0 id seed work out.
Proof.
  intros Hf Hseed [H1 H2 H3 H4 H5 H6].
  assert (Hw : fg input w -> lab out w <> 0).
  { intros Hw E. apply not_true_iff_false in Hf; apply Hf.
    now apply fresh_iff. }
  split; auto.
  - intros v Hv; apply H4; now right.
  - intros p q Hp0 Hp Ha Hq.
    destruct (H5 p q Hp0 Hp Ha Hq) as [|[<-|]]; auto.
  - destruct H6 as [|[<-|]]; auto.
Qed.

Lemma flood_inv_label out0 id seed w work out :
  id <> 0 ->
  Ndimage.fresh input out (fst w) (snd w) = true ->
  flood_inv input structure out0 id seed (w :: work) out ->
  flood_inv input structure out0 id seed
    (Ndimage.neighbours structure (fst w) (snd w) ++ work)
    (Ndimage.set_pixel out (fst w) (snd w) id).
Proof.
  intros Hid Hf [H1 H2 H3 H4 H5 H6].
  apply fresh_iff in Hf as [Hw Hw0].
  assert (Hsame : lab (Ndimage.set_pixel out (fst w) (snd w) id) w = id)
    by now apply lab_set_same.
  assert (Hnz : forall p, lab out p <> 0 ->
                  lab (Ndimage.set_pixel out (fst w) (snd w) id) p <> 0).
  { intros p Hp. destruct (pos_eq_dec w p) as [<-|Hne]; [congruence|].
    now rewrite lab_set_other. }
  split.
  - now rewrite set_pixel_shape.
  - intros p Hp.
    destruct (pos_eq_dec w p) as [<-|Hne].
    + specialize (H2 w Hp). congruence.
    + rewrite lab_set_other by assumption. auto.
  - intros p Hp0 Hp.
    destruct (pos_eq_dec w p) as [<-|Hne].
    + split; [assumption|]. apply H4; [now left | assumption].
    + rewrite lab_set_other in * by assumption. auto.
  - intros v Hv Hfv. apply in_app_or in Hv as [Hv|Hv].
    + eapply connected_step; [apply H4; [now left|assumption]| |]; auto.
    + apply H4; [now right | assumption].
  - intros p q Hp0 Hp Ha Hq.
    destruct (pos_eq_dec w p) as [<-|Hne].
    + right; apply in_or_app; now left.
    + rewrite lab_set_other in Hp by assumption.
      destruct (H5 p q Hp0 Hp Ha Hq) as [Hl|[<-|Hi]].
      * left; auto.
      * left; congruence.
      * right; apply in_or_app; now right.
  - destruct H6 as [Hl|[<-|Hi]].
    + left; auto.
    + left; congruence.
    + right; apply in_or_app; now right.
Qed.

Lemma flood_correct out0 id seed :
  id <> 0 -> fg input seed ->
  forall fuel work out,
    flood_inv input structure out0 id seed work out ->
    10 * unlabelled input out + length work <= fuel ->
    flood_inv input structure out0 id seed []
      (Ndimage.flood fuel input structure id work out).
Proof.
  intros Hid Hseed; induction fuel as [|fuel IH]; intros work out Hinv Hfuel.
  - destruct work; [assumption | simpl in Hfuel; lia].
  - destruct work as [|[r c] work]; [assumption|].
    simpl. destruct (Ndimage.fresh input out r c) eqn:Hf.
    + apply IH.
      * now apply (flood_inv_label out0 id seed (r, c)).
      * pose proof (unlabelled_decreases out (r, c) id
                      (fi_shape _ _ _ _ _ _ _ Hinv) Hid Hf).
        pose proof (neighbours_length structure r c).
        cbn [fst snd length] in *; rewrite length_app; unfold pos in *; lia.
    + apply IH.
      * now apply (flood_inv_skip out0 id seed (r, c)).
      * cbn [length] in Hfuel; lia.
Qed.

(** *** The scan *)

Lemma unlabelled_le out :
  unlabelled input out <= length (Ndimage.coords input).
Proof. unfold unlabelled; apply List.filter_length_le. Qed.

Lemma flood_inv_start out n p :
  shape out = shape input ->
  flood_inv input structure out (S n) p [p] out.
Proof.
  intros Hs; split.
  - assumption.
  - reflexivity.
  - intros q H0 H1; congruence.
  - intros w [<-|[]] Hw; now apply connected_refl.
  - intros q r H0 H1; congruence.
  - right; now left.
Qed.

Lemma scan_inv_step done out n p :
  scan_inv input structure done out n ->
  scan_inv input structure (done ++ [p]) (fst (Ndimage.scan input structure (out, n) p))
           (snd (Ndimage.scan input structure (out, n) p)).
Proof.
  intros [H1 H2 H3 H4 H5 H6 H7].
  destruct p as [r c]; unfold Ndimage.scan.
  destruct (Ndimage.fresh input out r c) eqn:Hf; cbn [fst snd].
  - (* a new group, filled from [(r, c)] *)
    pose proof (proj1 (fresh_iff out (r, c)) Hf) as [Hp Hp0].
    set (out' := Ndimage.flood (Ndimage.flood_fuel input) input structure
                   (S n) [(r, c)] out).
    assert (F : flood_inv input structure out (S n) (r, c) [] out').
    { apply flood_correct; auto.
      - now apply flood_inv_start.
      - pose proof (unlabelled_le out).
        unfold Ndimage.flood_fuel; simpl; lia. }
    destruct F as [F1 F2 F3 _ F5 F6].
    assert (Hseed : lab out' (r, c) <> 0) by (destruct F6 as [|[]]; auto).
    assert (Hnew : forall q, lab out q = 0 -> lab out' q <> 0 ->
                     lab out' q = S n /\ (r, c) ~> q) by auto.
    assert (Hold : forall q, lab out q <> 0 ->
                     lab out' q = lab out q /\ lab out' q <= n).
    { intros q Hq; rewrite (F2 q Hq); split; auto. }
    split; auto.
    + intros q. destruct (Nat.eq_dec (lab out q) 0) as [E|E].
      * destruct (Nat.eq_dec (lab out' q) 0) as [E'|E']; [lia|].
        destruct (Hnew q E E'); lia.
      * destruct (Hold q E); lia.
    + intros q Hq. destruct (Nat.eq_dec (lab out q) 0) as [E|E].
      * destruct (Hnew q E Hq) as [_ C]. now apply connected_fg_r in C.
      * auto.
    + intros q s Hq Ha Hs.
      destruct (Nat.eq_dec (lab out q) 0) as [E|E].
      * destruct (Hnew q E Hq) as [Eq C].
        destruct (F5 q s E Hq Ha Hs) as [Hs'|[]].
        destruct (Nat.eq_dec (lab out s) 0) as [Es|Es].
        -- destruct (Hnew s Es Hs'); congruence.
        -- exfalso. apply connected_fg_r in C.
           pose proof (H4 s q Es (adjacent_sym _ _ Ha) C). congruence.
      * destruct (Hold q E) as [Eq _].
        pose proof (H4 q s E Ha Hs) as Es.
        destruct (Hold s ltac:(congruence)) as [Es' _]. congruence.
    + intros q s Hq Heq.
      destruct (Nat.eq_dec (lab out q) 0) as [E|E].
      * destruct (Hnew q E Hq) as [Eq C].
        destruct (Nat.eq_dec (lab out s) 0) as [Es|Es].
        -- destruct (Hnew s Es ltac:(congruence)) as [_ C'].
           apply connected_trans with (r, c); auto using connected_sym.
        -- destruct (Hold s Es); lia.
      * destruct (Hold q E) as [Eq Hle].
        destruct (Nat.eq_dec (lab out s) 0) as [Es|Es].
        -- destruct (Hnew s Es ltac:(congruence)); lia.
        -- destruct (Hold s Es) as [Es' _]. apply H5; congruence.
    + intros q Hq Hfq. apply in_app_or in Hq as [Hq|[<-|[]]]; auto.
      specialize (H6 q Hq Hfq). destruct (Hold q H6); congruence.
    + intros id Hid. destruct (Nat.eq_dec id (S n)) as [->|Hne].
      * exists (r, c). destruct (Hnew (r, c) Hp0 Hseed); auto.
      * destruct (H7 id ltac:(lia)) as [q Hq]. exists q.
        destruct (Hold q ltac:(lia)); congruence.
  - split; auto.
    intros q Hq Hfq. apply in_app_or in Hq as [Hq|[<-|[]]]; auto.
    intros E. apply not_true_iff_false in Hf; apply Hf.
    now apply (fresh_iff out (r, c)).
Qed.

Lemma scan_inv_fold l : forall done st,
  scan_inv input structure done (fst st) (snd st) ->
  scan_inv input structure (done ++ l)
           (fst (fold_left (Ndimage.scan input structure) l st))
           (snd (fold_left (Ndimage.scan input structure) l st)).
Proof.
  induction l as [|p l IH]; intros done [out n] H; simpl fold_left.
  - now rewrite app_nil_r.
  - replace (done ++ p :: l) with ((done ++ [p]) ++ l)
      by now rewrite <- app_assoc.
    apply IH. now apply scan_inv_step.
Qed.

Lemma scan_inv_start : scan_inv input structure [] (full_like input 0) 0.
Proof.
  assert (Z0 : forall p, lab (full_like input 0) p = 0)
    by (intros p; apply get_full_like).
  split; try (intros; rewrite ?Z0 in *; congruence || lia || easy).
  apply shape_map.
Qed.

(** [label] numbers the groups of connected foreground positions. *)
Theorem label_spec :
  let out := fst (Ndimage.label input structure) in
  let n := snd (Ndimage.label input structure) in
  shape out = shape input /\
  (forall p, lab out p <> 0 <-> fg input p) /\
  (forall p, lab out p <= n) /\
  (forall id, 1 <= id <= n -> exists p, lab out p = id) /\
  (forall p q, fg input p -> fg input q ->
     (lab out p = lab out q <-> p ~> q)).
Proof.
  pose proof (scan_inv_fold (Ndimage.coords input) [] (full_like input 0, 0)
                scan_inv_start) as H.
  simpl app in H; fold (Ndimage.label input structure) in H.
  destruct H as [H1 H2 H3 H4 H5 H6 H7]; simpl.
  assert (Hall : forall p, fg input p ->
            lab (fst (Ndimage.label input structure)) p <> 0).
  { intros [r c] Hp; apply H6; auto. apply in_coords. now apply fg_inside. }
  split; [assumption|]. split.
  { intros p; split; auto. }
  split; [assumption|]. split; [assumption|].
  intros p q Hp Hq; split.
  - intros Heq; apply H5; auto.
  - intros C; clear Hp Hq. induction C as [p Hp|p q r C IH Ha Hr]; auto.
    rewrite IH; symmetry. apply H4; auto.
    apply Hall. now apply connected_fg_r in C.
Qed.

End Labelling.

(** ** The full 3x3 structuring element *)

Lemma neighbours_structure_mask r c :
  Ndimage.neighbours structure_mask r c =
  flat_map (fun d : nat * nat =>
    let (dr, dc) := d in
    if Nat.eqb (r + dr) 0 || Nat.eqb (c + dc) 0 then []
    else [(r + dr - 1, c + dc - 1)])
    [(0, 0); (0, 1); (0, 2); (1, 0); (1, 1); (1, 2); (2, 0); (2, 1); (2, 2)].
Proof. reflexivity. Qed.

(** With the full 3x3 element, the neighbours of a position are the
    positions at most one row and one column away. *)
Lemma adjacent_8 p q :
  adjacent structure_mask p q <->
  fst q <= fst p + 1 /\ fst p <= fst q + 1 /\
  snd q <= snd p + 1 /\ snd p <= snd q + 1.
Proof.
  destruct p as [r c], q as [r' c']; unfold adjacent; simpl fst; simpl snd.
  rewrite neighbours_structure_mask; split.
  - intros H; apply in_flat_map in H as ([dr dc] & Hd & H).
    destruct (Nat.eqb_spec (r + dr) 0), (Nat.eqb_spec (c + dc) 0);
      simpl in H; try easy.
    destruct H as [H|[]]; injection H as <- <-.
    simpl in Hd.
    repeat (destruct Hd as [Hd|Hd]; [injection Hd as <- <-; lia|]).
    easy.
  - intros (H1 & H2 & H3 & H4).
    apply in_flat_map. exists (r' + 1 - r, c' + 1 - c); split.
    + assert (Hr : r' + 1 - r = 0 \/ r' + 1 - r = 1 \/ r' + 1 - r = 2) by lia.
      assert (Hc : c' + 1 - c = 0 \/ c' + 1 - c = 1 \/ c' + 1 - c = 2) by lia.
      destruct Hr as [-> | [-> | ->]], Hc as [-> | [-> | ->]]; simpl; auto 10.
    + destruct (Nat.eqb_spec (r + (r' + 1 - r)) 0); [lia|].
      destruct (Nat.eqb_spec (c + (c' + 1 - c)) 0); [lia|].
      simpl; left; f_equal; lia.
Qed.

Lemma adjacent_8_sym p q :
  adjacent structure_mask p q -> adjacent structure_mask q p.
Proof. rewrite !adjacent_8; lia. Qed.

(** [ndimage.label] with the full 3x3 element: the regions are the groups
    of 8-connected foreground pixels, numbered 1 to [n]. *)
Theorem label_8_connected (input : image bool) :
  let out := fst (Ndimage.label input structure_mask) in
  let n := snd (Ndimage.label input structure_mask) in
  shape out = shape input /\
  (forall p, lab out p <> 0 <-> fg input p) /\
  (forall p, lab out p <= n) /\
  (forall id, 1 <= id <= n -> exists p, lab out p = id) /\
  (forall p q, fg input p -> fg input q ->
     (lab out p = lab out q <-> connected input structure_mask p q)).
Proof. apply label_spec, adjacent_8_sym. Qed.

(** ** An image with a single region *)

Lemma row_ext {A : Type} (d : A) (xs ys : list A) :
  length xs = length ys -> (forall c, nth c xs d = nth c ys d) -> xs = ys.
Proof. intros L H; apply nth_ext with (d := d) (d' := d); auto. Qed.

Lemma image_ext {A : Type} (d : A) (a b : image A) :
  shape a = shape b -> (forall r c, get d a r c = get d b r c) -> a = b.
Proof.
  intros Hs H.
  apply nth_ext with (d := []) (d' := []).
  - now rewrite <- !shape_length, Hs.
  - intros r _. apply row_ext with (d := d).
    + now rewrite <- !shape_nth, Hs.
    + intros c; apply H.
Qed.

Lemma get_map {A B : Type} (f : A -> B) (d : A) (a : image A) r c :
  get (f d) (map (map f) a) r c = f (get d a r c).
Proof.
  unfold get.
  change (@nil B) with (map f []). now rewrite !map_nth.
Qed.

Lemma get_eq_nat (a : image nat) v r c :
  v <> 0 -> get false (eq_nat a v) r c = (get 0 a r c =? v).
Proof.
  intros Hv; unfold eq_nat.
  pose proof (get_map (fun x => x =? v) 0 a r c) as E; cbv beta in E.
  replace (0 =? v) with false in E; [exact E|].
  symmetry; apply Nat.eqb_neq; auto.
Qed.

Lemma sum_positive (a : image bool) :
  0 < Np.sum a -> exists r c, get false a r c = true.
Proof.
  induction a as [|row a IH]; [unfold Np.sum; simpl; lia|].
  rewrite sum_cons; intros H.
  destruct (filter (fun b : bool => b) row) as [|b l] eqn:E.
  - destruct IH as (r & c & Hrc); [simpl in H; lia|].
    now exists (S r), c.
  - assert (Hb : In b (filter (fun b : bool => b) row))
      by (rewrite E; now left).
    apply filter_In in Hb as [Hin Hb]; subst b.
    apply In_nth with (d := false) in Hin as (c & _ & Hc).
    now exists 0, c.
Qed.

(** When all foreground pixels are 8-connected to each other and there is
    one at least, [label] returns a single region: the foreground. *)
Lemma label_single_region (input : image bool) :
  0 < Np.sum input ->
  (forall p q, fg input p -> fg input q ->
     connected input structure_mask p q) ->
  exists lesions,
    Ndimage.label input structure_mask = (lesions, 1) /\
    eq_nat lesions 1 = input.
Proof.
  intros Hpos Hone.
  destruct (label_spec input structure_mask adjacent_8_sym) as (Hs & Hfg & Hle & Hused & Hconn).
  destruct (Ndimage.label input structure_mask) as [lesions n]; simpl in *.
  assert (Hn : n = 1).
  { destruct (sum_positive input Hpos) as (r & c & Hrc).
    assert (H1 : lab lesions (r, c) <> 0) by now apply Hfg.
    pose proof (Hle (r, c)).
    destruct (Nat.le_gt_cases n 1) as [|Hgt]; [lia|].
    destruct (Hused 1 ltac:(lia)) as [p1 Hp1].
    destruct (Hused 2 ltac:(lia)) as [p2 Hp2].
    assert (F1 : fg input p1) by (apply Hfg; lia).
    assert (F2 : fg input p2) by (apply Hfg; lia).
    pose proof (proj2 (Hconn p1 p2 F1 F2) (Hone p1 p2 F1 F2)). lia. }
  subst n; exists lesions; split; [reflexivity|].
  apply image_ext with (d := false).
  - unfold eq_nat; now rewrite shape_map.
  - intros r c. rewrite get_eq_nat by lia.
    specialize (Hfg (r, c)); specialize (Hle (r, c)); unfold lab, fg in *;
      simpl in *.
    destruct (get false input r c).
    + assert (get 0 lesions r c <> 0) by now apply Hfg.
      apply Nat.eqb_eq; lia.
    + apply Nat.eqb_neq. intros E.
      assert (false = true) by (apply Hfg; lia). discriminate.
Qed.

(** Conversely, a labelling into one region shows the foreground is
    8-connected. *)
Lemma single_region_connected (input : image bool) :
  snd (Ndimage.label input structure_mask) = 1 ->
  forall p q, fg input p -> fg input q -> connected input structure_mask p q.
Proof.
  intros Hn p q Hp Hq.
  destruct (label_spec input structure_mask adjacent_8_sym) as (_ & Hfg & Hle & _ & Hconn).
  simpl in *; rewrite Hn in Hle.
  apply Hconn; auto.
  pose proof (proj2 (Hfg p) Hp). pose proof (proj2 (Hfg q) Hq).
  pose proof (Hle p). pose proof (Hle q). lia.
Qed.

(** ** The boundary of the acceptance test *)

Lemma nth_eqb_in (row : list Z) v c :
  nth c (map (fun x => Z.eqb x v) row) false = true -> In v row.
Proof.
  revert c; induction row as [|x row IH]; intros [|c]; simpl;
    try discriminate.
  - intros H; apply Z.eqb_eq in H; auto.
  - intros H; right; eauto.
Qed.

Lemma eq_Z_in (label : image Z) v r c :
  get false (eq_Z label v) r c = true -> In v (concat label).
Proof.
  unfold get, eq_Z; revert r; induction label as [|row a IH]; intros [|r];
    simpl.
  - destruct c; discriminate.
  - destruct c; discriminate.
  - intros H; apply in_or_app; left. eapply nth_eqb_in; eauto.
  - intros H; apply in_or_app; right. eauto.
Qed.

(** C7. With [acceptance_ratio = 0.1], on an image whose 8-bit label has
    100 pixels of value 255, all 8-connected to each other (exactly one
    lesion, of area 100): at a ladder position where the segmentation is
    255 on 9 pixels of the lesion the TP count is 0, and where it is 255 on
    10 of them the TP count is 1. *)
Theorem one_lesion_of_area_100 (logits : image R) (label : image Z)
  (num_thresholds i : nat) :
  same_shape logits label = true ->
  is_uint8 label = true ->
  Np.sum (eq_Z label 255) = 100 ->
  (forall p q, fg (eq_Z label 255) p -> fg (eq_Z label 255) q ->
     connected (eq_Z label 255) structure_mask p q) ->
  i < num_thresholds ->
  exists FPs TPs num_lesions segmentation,
    compute_FROC logits label num_thresholds (1 # 10)
      = Some (FPs, TPs, num_lesions) /\
    num_lesions = 1 /\
    post logits label (nth i (thresholds num_thresholds) 0%R)
      = Some segmentation /\
    let overlap :=
      Np.sum (logical_and (eq_Z label 255) (eq_Z segmentation 255)) in
    (overlap = 9 -> nth i TPs 0 = 0) /\
    (overlap = 10 -> nth i TPs 0 = 1).
Proof.
  intros Hs Hu Harea Hone Hi.
  assert (Hpos : 0 < Np.sum (eq_Z label 255)) by lia.
  destruct (sum_positive _ Hpos) as (r & c & Hrc).
  assert (Hm : Np.max label = Some 255%Z).
  { apply max_255; [now apply is_uint8_le | eapply eq_Z_in; eauto]. }
  destruct (label_single_region _ Hpos Hone) as (lesions & Hl & He).
  rewrite compute_FROC_lesions, Hl by assumption.
  do 3 eexists; exists (segmentation_at logits label num_thresholds i).
  split; [reflexivity|].
  split; [destruct num_thresholds; [lia | reflexivity]|].
  split; [now apply post_segmentation_at|].
  rewrite nth_map_seq by assumption.
  unfold tp_count, detected, overlap_area, lesion_area; cbn [seq filter].
  rewrite He, Harea.
  split; intros ->; reflexivity.
Qed.

Lemma one_lesion_of_area_100_witness :
  same_shape (heat (first_row 10)) label_10x10 = true /\
  is_uint8 label_10x10 = true /\
  Np.sum (eq_Z label_10x10 255) = 100 /\
  (forall p q, fg (eq_Z label_10x10 255) p -> fg (eq_Z label_10x10 255) q ->
     connected (eq_Z label_10x10 255) structure_mask p q) /\
  0 < 1 /\
  exists FPs TPs num_lesions segmentation,
    compute_FROC (heat (first_row 10)) label_10x10 1 (1 # 10)
      = Some (FPs, TPs, num_lesions) /\
    num_lesions = 1 /\
    post (heat (first_row 10)) label_10x10 (nth 0 (thresholds 1) 0%R)
      = Some segmentation /\
    let overlap :=
      Np.sum (logical_and (eq_Z label_10x10 255) (eq_Z segmentation 255)) in
    (overlap = 9 -> nth 0 TPs 0 = 0) /\
    (overlap = 10 -> nth 0 TPs 0 = 1).
Proof.
  assert (H1 : same_shape (heat (first_row 10)) label_10x10 = true)
    by reflexivity.
  assert (H2 : is_uint8 label_10x10 = true) by (vm_compute; reflexivity).
  assert (H3 : Np.sum (eq_Z label_10x10 255) = 100)
    by (vm_compute; reflexivity).
  assert (H4 : forall p q,
            fg (eq_Z label_10x10 255) p -> fg (eq_Z label_10x10 255) q ->
            connected (eq_Z label_10x10 255) structure_mask p q).
  { apply single_region_connected. vm_compute; reflexivity. }
  assert (H5 : 0 < 1) by lia.
  repeat (split; [assumption|]).
  apply (one_lesion_of_area_100 (heat (first_row 10)) label_10x10 1 0
           H1 H2 H3 H4 H5).
Defined.

(** The two sides of the boundary, computed. *)
Example overlap_9_of_100 :
  Np.sum (logical_and (eq_Z label_10x10 255)
            (eq_Z (segment_mask (first_row 9) label_10x10) 255)) = 9 /\
  compute_FROC (heat (first_row 9)) label_10x10 1 (1 # 10)
    = Some ([0], [0], 1).
Proof.
  split; [vm_compute; reflexivity|].
  rewrite compute_FROC_heat_lesions by (vm_compute; reflexivity).
  vm_compute; reflexivity.
Qed.

Example overlap_10_of_100 :
  Np.sum (logical_and (eq_Z label_10x10 255)
            (eq_Z (segment_mask (first_row 10) label_10x10) 255)) = 10 /\
  compute_FROC (heat (first_row 10)) label_10x10 1 (1 # 10)
    = Some ([0], [1], 1).
Proof.
  split; [vm_compute; reflexivity|].
  rewrite compute_FROC_heat_lesions by (vm_compute; reflexivity).
  vm_compute; reflexivity.
Qed.

(** ** The parameter [acceptance_ratio] is not read *)

(** C9. Whatever two values are passed for [acceptance_ratio],
    [compute_FROC] returns the same result: the parameter is not read, and
    the test of the inner loop compares [overlap_area / lesion_area] with
    the constant [ACCEPTANCE_RATIO], which is 0.1. *)
Theorem acceptance_ratio_not_read (logits : image R) (label : image Z)
  (num_thresholds : nat) (r1 r2 : Q) :
  compute_FROC logits label num_thresholds r1
    = compute_FROC logits label num_thresholds r2 /\
  ACCEPTANCE_RATIO = (1 # 10)%Q /\
  (forall lesions segmentation threshold TPs lesion_id,
     lesion_step lesions segmentation threshold TPs lesion_id =
     if Qle_bool ACCEPTANCE_RATIO
          (inject_Z (Z.of_nat (overlap_area lesions segmentation lesion_id))
           / inject_Z (Z.of_nat (lesion_area lesions lesion_id)))
     then set_item TPs threshold (item TPs (Z.of_nat threshold) + 1)
     else TPs).
Proof.
  split; [reflexivity|]; split; reflexivity.
Qed.

(** ** Accumulation over the data set *)

Lemma map_add_repeat c v :
  map (fun a => a + c) v = zip_with Nat.add v (repeat c (length v)).
Proof. induction v; simpl; congruence. Qed.

Lemma iadd_spec acc x :
  iadd acc x =
  if compatible (length acc) x
  then Some (zip_with Nat.add acc (spread (length acc) x))
  else None.
Proof.
  unfold iadd, compatible, spread.
  destruct (length x =? length acc); simpl; auto.
  destruct (length x =? 1); auto.
  now rewrite map_add_repeat.
Qed.

Lemma spread_length n x : compatible n x = true -> length (spread n x) = n.
Proof.
  unfold compatible, spread.
  destruct (Nat.eqb_spec (length x) n); auto.
  intros _; apply repeat_length.
Qed.

Lemma zip_add_length v x :
  length x = length v -> length (zip_with Nat.add v x) = length v.
Proof. intros H; now apply zip_with_length. Qed.

Lemma zip_add_swap v : forall x y,
  length x = length v -> length y = length v ->
  zip_with Nat.add (zip_with Nat.add v x) y =
  zip_with Nat.add (zip_with Nat.add v y) x.
Proof.
  induction v as [|a v IH]; intros [|b x] [|c y]; simpl; try easy.
  intros Hx Hy; f_equal; [lia|]. apply IH; lia.
Qed.

Lemma accumulate_spec n r t logits label :
  accumulate n r t (logits, label) =
  match compute_FROC logits label n r with
  | None => None
  | Some (im_FPs, im_TPs, im_lesions) =>
      if compatible (length (t_FPs t)) im_FPs &&
         compatible (length (t_TPs t)) im_TPs
      then Some (mk_totals
             (zip_with Nat.add (t_FPs t) (spread (length (t_FPs t)) im_FPs))
             (zip_with Nat.add (t_TPs t) (spread (length (t_TPs t)) im_TPs))
             (if im_lesions =? 0 then t_num_normal_images t + 1
              else t_num_normal_images t)
             (t_num_lesions t + im_lesions))
      else None
  end.
Proof.
  unfold accumulate.
  destruct (compute_FROC logits label n r) as [[[f tp] k]|]; simpl; auto.
  rewrite !iadd_spec.
  destruct (compatible (length (t_FPs t)) f); simpl; auto.
  destruct (compatible (length (t_TPs t)) tp); simpl; auto.
Qed.

Lemma accumulate_swap n r t (a b : example) :
  (t' <- accumulate n r t a ;; accumulate n r t' b) =
  (t' <- accumulate n r t b ;; accumulate n r t' a).
Proof.
  destruct a as [la ba], b as [lb bb], t as [F T nn nl].
  rewrite (accumulate_spec n r _ la ba), (accumulate_spec n r _ lb bb).
  destruct (compute_FROC la ba n r) as [[[fa ta] ka]|] eqn:Ea;
    destruct (compute_FROC lb bb n r) as [[[fb tb] kb]|] eqn:Eb; simpl.
  - destruct (compatible (length F) fa) eqn:CFa,
             (compatible (length T) ta) eqn:CTa,
             (compatible (length F) fb) eqn:CFb,
             (compatible (length T) tb) eqn:CTb; simpl;
      rewrite ?Ea, ?Eb; simpl;
      repeat (rewrite ?iadd_spec;
              rewrite ?zip_add_length by (now apply spread_length);
              rewrite ?CFa, ?CTa, ?CFb, ?CTb; simpl); auto.
    f_equal; f_equal.
    + apply zip_add_swap; now apply spread_length.
    + apply zip_add_swap; now apply spread_length.
    + destruct (ka =? 0), (kb =? 0); lia.
    + lia.
  - destruct (compatible (length F) fa && compatible (length T) ta); simpl;
      rewrite ?Eb; auto.
  - destruct (compatible (length F) fb && compatible (length T) tb); simpl;
      rewrite ?Ea; auto.
  - reflexivity.
Qed.

Lemma for_each_permutation {S A : Type} (body : S -> A -> option S) :
  (forall s a b, (s' <- body s a ;; body s' b) = (s' <- body s b ;; body s' a)) ->
  forall xs ys, Permutation xs ys ->
  forall s, for_each body xs s = for_each body ys s.
Proof.
  intros Hswap xs ys H; induction H as [|x xs ys _ IH|x y xs|xs ys zs _ IH1 _ IH2];
    intros s; simpl.
  - reflexivity.
  - destruct (body s x); simpl; auto.
  - pose proof (Hswap s y x) as E.
    destruct (body s y) as [s1|], (body s x) as [s2|]; simpl in *.
    + destruct (body s1 x), (body s2 y); simpl; congruence.
    + destruct (body s1 x); simpl; congruence.
    + destruct (body s2 y); simpl; congruence.
    + reflexivity.
  - now rewrite IH1, IH2.
Qed.

(** C8. Processing the rows of the data set in another order (reversed, or
    permuted in any way) gives the same totals (the [FPs] and [TPs]
    vectors, the number of lesions, the number of normal images) and the
    same [sensitivity] and [FP_per_image]. *)
Theorem accumulation_order_irrelevant (data data' : list example)
  (num_thresholds : nat) (acceptance_ratio : Q) :
  Permutation data data' ->
  accumulate_all data num_thresholds acceptance_ratio
    = accumulate_all data' num_thresholds acceptance_ratio /\
  main data num_thresholds acceptance_ratio
    = main data' num_thresholds acceptance_ratio.
Proof.
  intros H.
  assert (E : accumulate_all data num_thresholds acceptance_ratio
              = accumulate_all data' num_thresholds acceptance_ratio).
  { unfold accumulate_all; apply for_each_permutation; auto.
    intros s a b; apply accumulate_swap. }
  split; [assumption|]. unfold main; now rewrite E.
Qed.

Lemma accumulation_order_irrelevant_witness :
  let a := (logits_2x2, label_2x2) in
  let b := (logits_2x2, label_normal_2x2) in
  Permutation [a; b] (rev [a; b]) /\
  accumulate_all [a; b] 50 (1 # 10) = accumulate_all (rev [a; b]) 50 (1 # 10) /\
  main [a; b] 50 (1 # 10) = main (rev [a; b]) 50 (1 # 10).
Proof.
  intros a b.
  assert (H : Permutation [a; b] (rev [a; b])) by (simpl; apply perm_swap).
  split; [assumption|].
  apply (accumulation_order_irrelevant [a; b] (rev [a; b]) 50 (1 # 10) H).
Defined.

(** ** A data set without lesions, or without normal images *)

Lemma normal_image_alone r :
  accumulate_all [normal_image] 50 r
    = Some (mk_totals (repeat 2 50) (zeros 50) 1 0).
Proof.
  unfold accumulate_all, normal_image; cbn [for_each].
  rewrite accumulate_spec.
  rewrite compute_FROC_heat_normal with (m := 127%Z);
    [|reflexivity|reflexivity|discriminate].
  vm_compute; reflexivity.
Qed.

(** C6, as stated, fails: a data set that consists of one normal image has
    no lesion, and [main] returns all the same, with a [sensitivity] of
    [nan] at each of the 50 positions. *)
Lemma no_lesion_no_failure :
  exists t,
    accumulate_all [normal_image] 50 (1 # 10) = Some t /\
    t_num_lesions t = 0 /\
    main [normal_image] 50 (1 # 10) <> None /\
    main [normal_image] 50 (1 # 10)
      = Some (repeat NaN 50, repeat (Finite (2 # 1)) 50).
Proof.
  exists (mk_totals (repeat 2 50) (zeros 50) 1 0).
  assert (E : main [normal_image] 50 (1 # 10)
              = Some (repeat NaN 50, repeat (Finite (2 # 1)) 50)).
  { unfold main; rewrite normal_image_alone. vm_compute; reflexivity. }
  split; [apply normal_image_alone|]; split; [reflexivity|].
  split; [rewrite E; discriminate | exact E].
Qed.

Lemma nth_error_true_divide v d i x :
  nth_error v i = Some x ->
  nth_error (map (fun y => true_divide y d) v) i = Some (true_divide x d).
Proof. intros H; now rewrite nth_error_map, H. Qed.

(** C6, amended.  Once the rows have been accumulated, the final step
    reports nothing: [main] returns the two vectors.  With no lesion in the
    data set every entry of [sensitivity] is [nan] (where the TP total is
    0) or [inf]; with no normal image every entry of [FP_per_image] is
    [nan] (where the FP total is 0) or [inf]; none of them is a finite
    number. *)
Theorem zero_counts_give_nan_or_inf (data : list example)
  (num_thresholds : nat) (acceptance_ratio : Q) (t : totals) :
  accumulate_all data num_thresholds acceptance_ratio = Some t ->
  main data num_thresholds acceptance_ratio = Some (final_metrics t) /\
  (t_num_lesions t = 0 ->
     forall i x, nth_error (t_TPs t) i = Some x ->
       nth_error (fst (final_metrics t)) i
         = Some (if x =? 0 then NaN else PosInf)) /\
  (t_num_normal_images t = 0 ->
     forall i x, nth_error (t_FPs t) i = Some x ->
       nth_error (snd (final_metrics t)) i
         = Some (if x =? 0 then NaN else PosInf)).
Proof.
  intros E; split; [unfold main; now rewrite E|].
  unfold final_metrics; simpl; split; intros Hz i x Hx; rewrite Hz;
    rewrite (nth_error_true_divide _ 0 i x Hx); now destruct x.
Qed.

Lemma zero_counts_give_nan_or_inf_witness :
  let t := mk_totals (repeat 2 50) (zeros 50) 1 0 in
  accumulate_all [normal_image] 50 (1 # 10) = Some t /\
  main [normal_image] 50 (1 # 10) = Some (final_metrics t) /\
  (t_num_lesions t = 0 ->
     forall i x, nth_error (t_TPs t) i = Some x ->
       nth_error (fst (final_metrics t)) i
         = Some (if x =? 0 then NaN else PosInf)) /\
  (t_num_normal_images t = 0 ->
     forall i x, nth_error (t_FPs t) i = Some x ->
       nth_error (snd (final_metrics t)) i
         = Some (if x =? 0 then NaN else PosInf)).
Proof.
  intros t.
  assert (H : accumulate_all [normal_image] 50 (1 # 10) = Some t)
    by apply normal_image_alone.
  split; [assumption|].
  apply (zero_counts_give_nan_or_inf [normal_image] 50 (1 # 10) t H).
Defined.

(** ** What [compute_FROC] raises on *)

(** With no threshold the loop does not run; with one at least, a heatmap
    and a label of different shapes, or a label without entries, raise at
    the first position. *)
Theorem compute_FROC_raises (logits : image R) (label : image Z)
  (num_thresholds : nat) (acceptance_ratio : Q) :
  compute_FROC logits label 0 acceptance_ratio = Some ([], [], 0) /\
  (0 < num_thresholds -> same_shape logits label = false ->
     compute_FROC logits label num_thresholds acceptance_ratio = None) /\
  (0 < num_thresholds -> concat label = [] ->
     compute_FROC logits label num_thresholds acceptance_ratio = None).
Proof.
  split; [reflexivity|]; split; intros Hn H;
    destruct num_thresholds as [|n]; try lia; unfold compute_FROC;
    cbn [seq]; rewrite for_each_fails; auto; intros s; unfold threshold_step.
  - now rewrite post_unfold, H.
  - destruct (post logits label _); auto; simpl.
    unfold Np.max; now rewrite H.
Qed.

(** ** The count of true positives *)

(** On an image with lesions, the TP entry at each ladder position is the
    number of regions of 255-pixels of the label of which the segmentation
    covers a tenth at least; the caller's ratio plays no part. *)
Theorem TPs_count_covered_regions (logits : image R) (label : image Z)
  (num_thresholds : nat) (acceptance_ratio : Q) :
  same_shape logits label = true ->
  is_uint8 label = true ->
  In 255%Z (concat label) ->
  let lesions := fst (Ndimage.label (eq_Z label 255) structure_mask) in
  let num := snd (Ndimage.label (eq_Z label 255) structure_mask) in
  exists FPs TPs num_lesions,
    compute_FROC logits label num_thresholds acceptance_ratio
      = Some (FPs, TPs, num_lesions) /\
    (0 < num_thresholds -> num_lesions = num) /\
    forall i, i < num_thresholds ->
      exists segmentation,
        post logits label (nth i (thresholds num_thresholds) 0%R)
          = Some segmentation /\
        nth i TPs 0 =
        length (filter (fun id =>
                  (0 <? lesion_area lesions id) &&
                  (lesion_area lesions id
                     <=? 10 * overlap_area lesions segmentation id))
                 (seq 1 num)).
Proof.
  intros Hs Hu Hin lesions num; subst lesions num.
  pose proof (is_uint8_le label Hu) as Hb.
  rewrite compute_FROC_lesions by auto using max_255.
  destruct (Ndimage.label (eq_Z label 255) structure_mask) as [lesions num].
  do 3 eexists; split; [reflexivity|]; split.
  - intros Hn; destruct num_thresholds; [lia | reflexivity].
  - intros i Hi; exists (segmentation_at logits label num_thresholds i).
    split; [now apply post_segmentation_at|].
    rewrite nth_map_seq by assumption; unfold tp_count; simpl fst.
    f_equal; apply filter_ext; intros id; unfold detected.
    apply eq_true_iff_eq.
    rewrite accepted_iff, andb_true_iff, Nat.ltb_lt, Nat.leb_le. reflexivity.
Qed.

Lemma TPs_count_covered_regions_witness :
  same_shape logits_2x2 label_2x2 = true /\
  is_uint8 label_2x2 = true /\
  In 255%Z (concat label_2x2) /\
  let lesions := fst (Ndimage.label (eq_Z label_2x2 255) structure_mask) in
  let num := snd (Ndimage.label (eq_Z label_2x2 255) structure_mask) in
  exists FPs TPs num_lesions,
    compute_FROC logits_2x2 label_2x2 3 (1 # 2)
      = Some (FPs, TPs, num_lesions) /\
    (0 < 3 -> num_lesions = num) /\
    forall i, i < 3 ->
      exists segmentation,
        post logits_2x2 label_2x2 (nth i (thresholds 3) 0%R)
          = Some segmentation /\
        nth i TPs 0 =
        length (filter (fun id =>
                  (0 <? lesion_area lesions id) &&
                  (lesion_area lesions id
                     <=? 10 * overlap_area lesions segmentation id))
                 (seq 1 num)).
Proof.
  assert (H1 : same_shape logits_2x2 label_2x2 = true) by reflexivity.
  assert (H2 : is_uint8 label_2x2 = true) by reflexivity.
  assert (H3 : In 255%Z (concat label_2x2)) by (simpl; auto).
  repeat (split; [assumption|]).
  apply (TPs_count_covered_regions logits_2x2 label_2x2 3 (1 # 2) H1 H2 H3).
Defined.

(** ** A data set of two images *)

(** One image with a lesion that is detected at every threshold, and one
    normal image with one predicted group at every threshold: the
    sensitivity is 1 and there is 1 false positive per image along the
    whole ladder. *)
Theorem two_images_end_to_end (acceptance_ratio : Q) :
  main [lesion_image; one_blob_image] 50 acceptance_ratio
    = Some (repeat (Finite (1 # 1)) 50, repeat (Finite (1 # 1)) 50).
Proof.
  unfold main, accumulate_all, lesion_image, one_blob_image; cbn [for_each].
  rewrite accumulate_spec.
  rewrite compute_FROC_heat_lesions by reflexivity.
  cbv beta iota zeta delta -[accumulate compute_FROC heat].
  rewrite accumulate_spec.
  rewrite compute_FROC_heat_normal with (m := 127%Z);
    [|reflexivity|reflexivity|discriminate].
  vm_compute; reflexivity.
Qed.

(** ** Every result of [compute_FROC] *)

Lemma compute_FROC_shape_mismatch logits label n r :
  0 < n -> same_shape logits label = false ->
  compute_FROC logits label n r = None.
Proof.
  intros Hn H; destruct n as [|n]; [lia|]; unfold compute_FROC.
  cbn [seq]; rewrite for_each_fails; auto.
  intros s; unfold threshold_step. now rewrite post_unfold, H.
Qed.

Lemma compute_FROC_no_max logits label n r :
  0 < n -> Np.max label = None ->
  compute_FROC logits label n r = None.
Proof.
  intros Hn H; destruct n as [|n]; [lia|]; unfold compute_FROC.
  cbn [seq]; rewrite for_each_fails; auto.
  intros s; unfold threshold_step.
  destruct (post logits label _); auto; simpl. now rewrite H.
Qed.

(** What a returned result looks like: the image went through one of the
    two branches at every position. *)
Lemma compute_FROC_view logits label n r FPs TPs k :
  compute_FROC logits label n r = Some (FPs, TPs, k) ->
  (0 < n /\ same_shape logits label = true /\ Np.max label = Some 255%Z /\
   FPs = zeros n /\
   TPs = map (fun i =>
                tp_count (fst (Ndimage.label (eq_Z label 255) structure_mask))
                         (snd (Ndimage.label (eq_Z label 255) structure_mask))
                         (segmentation_at logits label n i))
             (seq 0 n) /\
   k = snd (Ndimage.label (eq_Z label 255) structure_mask)) \/
  (FPs = map (clamped (fun i => blob_count (segmentation_at logits label n i)))
             (seq 0 n) /\
   TPs = zeros n /\ k = 0 /\
   (0 < n -> same_shape logits label = true /\
             exists m, Np.max label = Some m /\ m <> 255%Z)).
Proof.
  intros E.
  destruct n as [|n].
  { right. cbv in E. injection E as <- <- <-. repeat split; auto; lia. }
  assert (Hn : 0 < S n) by lia.
  destruct (same_shape logits label) eqn:Hs.
  2:{ rewrite compute_FROC_shape_mismatch in E by assumption. discriminate. }
  destruct (Np.max label) as [m|] eqn:Hm.
  2:{ rewrite compute_FROC_no_max in E by assumption. discriminate. }
  destruct (Z.eq_dec m 255) as [->|Hne].
  - left. rewrite compute_FROC_lesions in E by assumption.
    destruct (Ndimage.label (eq_Z label 255) structure_mask) as [lesions num].
    simpl in E; injection E as <- <- <-. repeat split; auto.
  - right. rewrite compute_FROC_normal with (m := m) in E by assumption.
    injection E as <- <- <-. repeat split; auto. eauto.
Qed.

Lemma nondecreasing_map (f : nat -> nat) n :
  (forall i j, i <= j -> j < n -> f i <= f j) ->
  nondecreasing (map f (seq 0 n)).
Proof.
  intros H i j Hij Hj; rewrite length_map, length_seq in Hj.
  rewrite !nth_map_seq by lia. auto.
Qed.

Lemma nondecreasing_zeros n : nondecreasing (zeros n).
Proof. intros i j _ _; now rewrite !nth_zeros. Qed.

Lemma tp_count_le lesions num seg : tp_count lesions num seg <= num.
Proof.
  unfold tp_count.
  etransitivity; [apply List.filter_length_le|]. now rewrite length_seq.
Qed.

Lemma nth_map_seq_le (f : nat -> nat) n i b :
  (forall j, j < n -> f j <= b) -> nth i (map f (seq 0 n)) 0 <= b.
Proof.
  intros H; destruct (Nat.lt_ge_cases i n) as [Hi|Hi].
  - rewrite nth_map_seq by assumption. auto.
  - rewrite nth_overflow by now rewrite length_map, length_seq. lia.
Qed.

(** Whatever image [compute_FROC] returns on, the two vectors have one
    entry per threshold, neither ever decreases along the ladder, no TP
    entry exceeds the returned number of lesions, and one of the two
    vectors is zero throughout. *)
Theorem compute_FROC_result_shape (logits : image R) (label : image Z)
  (num_thresholds : nat) (acceptance_ratio : Q) (FPs TPs : list nat)
  (num_lesions : nat) :
  compute_FROC logits label num_thresholds acceptance_ratio
    = Some (FPs, TPs, num_lesions) ->
  length FPs = num_thresholds /\ length TPs = num_thresholds /\
  nondecreasing FPs /\ nondecreasing TPs /\
  (forall i, nth i TPs 0 <= num_lesions) /\
  (FPs = zeros num_thresholds \/
   (TPs = zeros num_thresholds /\ num_lesions = 0)).
Proof.
  intros E; apply compute_FROC_view in E.
  destruct E as [(Hn & Hs & Hm & -> & -> & ->)|(-> & -> & -> & _)].
  - rewrite zeros_length, length_map, length_seq.
    repeat split; auto using nondecreasing_zeros.
    + apply nondecreasing_map; intros i j Hij Hj.
      now apply tp_count_monotone.
    + intros i; apply nth_map_seq_le; intros j _; apply tp_count_le.
  - rewrite zeros_length, length_map, length_seq.
    repeat split; auto using nondecreasing_zeros.
    + apply nondecreasing_map; intros i j Hij Hj.
      now apply clamped_monotone.
    + intros i; rewrite nth_zeros; lia.
Qed.

Lemma compute_FROC_result_shape_witness :
  compute_FROC (heat row_mask) row_label 3 (1 # 10)
    = Some ([0; 0; 0], [1; 1; 1], 1) /\
  length [0; 0; 0] = 3 /\ length [1; 1; 1] = 3 /\
  nondecreasing [0; 0; 0] /\ nondecreasing [1; 1; 1] /\
  (forall i, nth i [1; 1; 1] 0 <= 1) /\
  ([0; 0; 0] = zeros 3 \/ ([1; 1; 1] = zeros 3 /\ 1 = 0)).
Proof.
  assert (H : compute_FROC (heat row_mask) row_label 3 (1 # 10)
              = Some ([0; 0; 0], [1; 1; 1], 1)).
  { rewrite compute_FROC_heat_lesions by reflexivity. vm_compute; reflexivity. }
  split; [exact H|].
  apply (compute_FROC_result_shape (heat row_mask) row_label 3 (1 # 10)
           [0; 0; 0] [1; 1; 1] 1 H).
Defined.

(** ** What the accumulation keeps *)

Lemma for_each_invariant {S A : Type} (body : S -> A -> option S)
  (P : list A -> S -> Prop) :
  (forall done s x s', P done s -> body s x = Some s' -> P (done ++ [x]) s') ->
  forall xs done s0 s,
    P done s0 -> for_each body xs s0 = Some s -> P (done ++ xs) s.
Proof.
  intros Hstep; induction xs as [|x xs IH]; intros done s0 s H0 E; simpl in E.
  - injection E as <-. now rewrite app_nil_r.
  - destruct (body s0 x) as [s1|] eqn:E1; [|discriminate]; simpl in E.
    replace (done ++ x :: xs) with ((done ++ [x]) ++ xs)
      by now rewrite <- app_assoc.
    eapply IH; eauto.
Qed.

Lemma nth_zip_add v x i :
  length x = length v ->
  nth i (zip_with Nat.add v x) 0 = nth i v 0 + nth i x 0.
Proof.
  revert x i; induction v as [|a v IH]; intros [|b x] [|i]; simpl; try easy.
  intros H; apply IH; lia.
Qed.

Lemma nondecreasing_zip_add v x :
  length x = length v -> nondecreasing v -> nondecreasing x ->
  nondecreasing (zip_with Nat.add v x).
Proof.
  intros L Hv Hx i j Hij Hj.
  rewrite zip_add_length in Hj by assumption.
  rewrite !nth_zip_add by assumption.
  specialize (Hv i j Hij Hj). specialize (Hx i j Hij ltac:(lia)). lia.
Qed.

Lemma nondecreasing_repeat c n : nondecreasing (repeat c n).
Proof.
  intros i j Hij Hj; rewrite repeat_length in Hj.
  rewrite !nth_repeat_lt by lia. lia.
Qed.

Lemma nondecreasing_spread n x : nondecreasing x -> nondecreasing (spread n x).
Proof.
  unfold spread; destruct (length x =? n); auto using nondecreasing_repeat.
Qed.

Lemma nth_spread_le n x i b :
  (forall j, nth j x 0 <= b) -> nth i (spread n x) 0 <= b.
Proof.
  intros H; unfold spread; destruct (length x =? n); auto.
  destruct (Nat.lt_ge_cases i n).
  - rewrite nth_repeat_lt by assumption. auto.
  - rewrite nth_overflow by now rewrite repeat_length. lia.
Qed.

(** One row added to the totals: what [accumulate] returned, read back. *)
Lemma accumulate_some n r t logits label t' :
  accumulate n r t (logits, label) = Some t' ->
  exists f tp k,
    compute_FROC logits label n r = Some (f, tp, k) /\
    compatible (length (t_FPs t)) f = true /\
    compatible (length (t_TPs t)) tp = true /\
    t_FPs t' = zip_with Nat.add (t_FPs t) (spread (length (t_FPs t)) f) /\
    t_TPs t' = zip_with Nat.add (t_TPs t) (spread (length (t_TPs t)) tp) /\
    t_num_normal_images t' =
      (if k =? 0 then t_num_normal_images t + 1 else t_num_normal_images t) /\
    t_num_lesions t' = t_num_lesions t + k.
Proof.
  rewrite accumulate_spec.
  destruct (compute_FROC logits label n r) as [[[f tp] k]|]; [|discriminate].
  destruct (compatible (length (t_FPs t)) f) eqn:C1; [|discriminate].
  destruct (compatible (length (t_TPs t)) tp) eqn:C2; [|discriminate].
  simpl; intros E; injection E as <-. exists f, tp, k; simpl; auto 10.
Qed.

Lemma totals_ok_initial : totals_ok initial_totals.
Proof.
  unfold totals_ok, initial_totals; cbn [t_FPs t_TPs t_num_lesions].
  rewrite !zeros_length; repeat split; auto using nondecreasing_zeros.
  intros i; rewrite nth_zeros; lia.
Qed.

Lemma totals_ok_step n r t row t' :
  totals_ok t -> accumulate n r t row = Some t' -> totals_ok t'.
Proof.
  intros (L1 & L2 & M1 & M2 & B) E; destruct row as [logits label].
  apply accumulate_some in E
    as (f & tp & k & Ec & C1 & C2 & EF & ET & _ & EL).
  pose proof (compute_FROC_view logits label n r f tp k Ec) as V.
  assert (Hf : nondecreasing f /\ nondecreasing tp /\
               forall i, nth i tp 0 <= k).
  { destruct V as [(Hn & Hs & Hm & -> & -> & ->)|(-> & -> & -> & _)].
    - repeat split; auto using nondecreasing_zeros.
      + apply nondecreasing_map; intros i j Hij Hj.
        now apply tp_count_monotone.
      + intros i; apply nth_map_seq_le; intros j _; apply tp_count_le.
    - repeat split; auto using nondecreasing_zeros.
      + apply nondecreasing_map; intros i j Hij Hj.
        now apply clamped_monotone.
      + intros i; rewrite nth_zeros; lia. }
  destruct Hf as (Hf & Htp & Hk).
  pose proof (spread_length _ _ C1) as S1.
  pose proof (spread_length _ _ C2) as S2.
  unfold totals_ok; rewrite EF, ET, EL.
  rewrite !zip_add_length by assumption.
  repeat split; auto.
  - apply nondecreasing_zip_add; auto using nondecreasing_spread.
  - apply nondecreasing_zip_add; auto using nondecreasing_spread.
  - intros i; rewrite nth_zip_add by assumption.
    pose proof (B i). pose proof (nth_spread_le (length (t_TPs t)) tp i k Hk).
    lia.
Qed.

Lemma accumulate_all_ok data n r t :
  accumulate_all data n r = Some t -> totals_ok t.
Proof.
  intros E.
  apply (for_each_invariant (accumulate n r) (fun _ => totals_ok))
    with (xs := data) (done := []) (s0 := initial_totals); auto.
  - intros done s x s' H Hs; eapply totals_ok_step; eauto.
  - apply totals_ok_initial.
Qed.

(** ** The curve of a data set with lesions and normal images *)

Lemma true_divide_finite x d : 0 < d -> true_divide x d = Finite (ratio x d).
Proof. destruct d; [lia | reflexivity]. Qed.

Lemma ratio_monotone x y d : 0 < d -> x <= y -> (ratio x d <= ratio y d)%Q.
Proof.
  intros Hd H; destruct d as [|d]; [lia|].
  unfold ratio, Qle, Qdiv, Qmult, Qinv, inject_Z; simpl. nia.
Qed.

Lemma ratio_nonneg x d : 0 < d -> (0 <= ratio x d)%Q.
Proof.
  intros Hd; destruct d as [|d]; [lia|].
  unfold ratio, Qle, Qdiv, Qmult, Qinv, inject_Z; simpl. nia.
Qed.

Lemma ratio_le_1 x d : 0 < d -> x <= d -> (ratio x d <= 1)%Q.
Proof.
  intros Hd H; destruct d as [|d]; [lia|].
  unfold ratio, Qle, Qdiv, Qmult, Qinv, inject_Z; simpl.
  rewrite Zpos_P_of_succ_nat. lia.
Qed.

Lemma nth_map_ratio v d i :
  i < length v -> nth i (map (fun x => ratio x d) v) 0%Q = ratio (nth i v 0) d.
Proof.
  intros H.
  rewrite nth_indep with (d' := ratio 0 d) by now rewrite length_map.
  apply (map_nth (fun x => ratio x d)).
Qed.

Lemma map_true_divide v d :
  0 < d ->
  map (fun x => true_divide x d) v = map Finite (map (fun x => ratio x d) v).
Proof.
  intros H; rewrite map_map; apply map_ext; intros x.
  now apply true_divide_finite.
Qed.

(** On a data set with at least one lesion and one normal image, [main]
    returns two vectors of 50 finite numbers; neither decreases along the
    ladder, the sensitivities lie between 0 and 1, and the numbers of false
    positives per image are not negative. *)
Theorem curve_well_formed (data : list example) (num_thresholds : nat)
  (acceptance_ratio : Q) (t : totals) :
  accumulate_all data num_thresholds acceptance_ratio = Some t ->
  0 < t_num_lesions t ->
  0 < t_num_normal_images t ->
  exists sensitivity FP_per_image : list Q,
    main data num_thresholds acceptance_ratio
      = Some (map Finite sensitivity, map Finite FP_per_image) /\
    length sensitivity = NUM_THRESHOLDS /\
    length FP_per_image = NUM_THRESHOLDS /\
    (forall i j, i <= j -> j < NUM_THRESHOLDS ->
       (nth i sensitivity 0 <= nth j sensitivity 0)%Q /\
       (nth i FP_per_image 0 <= nth j FP_per_image 0)%Q) /\
    (forall i, i < NUM_THRESHOLDS ->
       (0 <= nth i sensitivity 0 <= 1)%Q /\ (0 <= nth i FP_per_image 0)%Q).
Proof.
  intros E HL HN.
  destruct (accumulate_all_ok data num_thresholds acceptance_ratio t E)
    as (L1 & L2 & M1 & M2 & B).
  exists (map (fun x => ratio x (t_num_lesions t)) (t_TPs t)),
         (map (fun x => ratio x (t_num_normal_images t)) (t_FPs t)).
  split.
  { unfold main; rewrite E; simpl; unfold final_metrics.
    now rewrite !map_true_divide by assumption. }
  rewrite !length_map; repeat split; auto.
  - rewrite !nth_map_ratio by lia.
    apply ratio_monotone; auto. apply M2; lia.
  - rewrite !nth_map_ratio by lia.
    apply ratio_monotone; auto. apply M1; lia.
  - rewrite nth_map_ratio by lia. now apply ratio_nonneg.
  - rewrite nth_map_ratio by lia. apply ratio_le_1; auto.
  - rewrite nth_map_ratio by lia. now apply ratio_nonneg.
Qed.

Lemma two_images_totals r :
  accumulate_all [lesion_image; one_blob_image] 50 r
    = Some (mk_totals (repeat 1 50) (repeat 1 50) 1 1).
Proof.
  unfold accumulate_all, lesion_image, one_blob_image; cbn [for_each].
  rewrite accumulate_spec.
  rewrite compute_FROC_heat_lesions by reflexivity.
  cbv beta iota zeta delta -[accumulate compute_FROC heat].
  rewrite accumulate_spec.
  rewrite compute_FROC_heat_normal with (m := 127%Z);
    [|reflexivity|reflexivity|discriminate].
  vm_compute; reflexivity.
Qed.

Lemma curve_well_formed_witness :
  let t := mk_totals (repeat 1 50) (repeat 1 50) 1 1 in
  accumulate_all [lesion_image; one_blob_image] 50 (1 # 10) = Some t /\
  0 < t_num_lesions t /\
  0 < t_num_normal_images t /\
  exists sensitivity FP_per_image : list Q,
    main [lesion_image; one_blob_image] 50 (1 # 10)
      = Some (map Finite sensitivity, map Finite FP_per_image) /\
    length sensitivity = NUM_THRESHOLDS /\
    length FP_per_image = NUM_THRESHOLDS /\
    (forall i j, i <= j -> j < NUM_THRESHOLDS ->
       (nth i sensitivity 0 <= nth j sensitivity 0)%Q /\
       (nth i FP_per_image 0 <= nth j FP_per_image 0)%Q) /\
    (forall i, i < NUM_THRESHOLDS ->
       (0 <= nth i sensitivity 0 <= 1)%Q /\ (0 <= nth i FP_per_image 0)%Q).
Proof.
  intros t.
  assert (H1 : accumulate_all [lesion_image; one_blob_image] 50 (1 # 10)
               = Some t) by apply two_images_totals.
  assert (H2 : 0 < t_num_lesions t) by (simpl; lia).
  assert (H3 : 0 < t_num_normal_images t) by (simpl; lia).
  repeat (split; [assumption|]).
  apply (curve_well_formed [lesion_image; one_blob_image] 50 (1 # 10) t
           H1 H2 H3).
Defined.

(** ** The values of [num_thresholds] that [main] accepts *)

Lemma compute_FROC_lengths logits label n r FPs TPs k :
  compute_FROC logits label n r = Some (FPs, TPs, k) ->
  length FPs = n /\ length TPs = n.
Proof.
  intros E; apply compute_FROC_view in E.
  destruct E as [(_ & _ & _ & -> & -> & _)|(-> & -> & _)];
    now rewrite zeros_length, length_map, length_seq.
Qed.

Lemma accumulate_thresholds n r t row t' :
  length (t_FPs t) = NUM_THRESHOLDS ->
  accumulate n r t row = Some t' -> n = NUM_THRESHOLDS \/ n = 1.
Proof.
  intros L E; destruct row as [logits label].
  apply accumulate_some in E as (f & tp & k & Ec & C1 & _).
  apply compute_FROC_lengths in Ec as [Lf _].
  unfold compatible in C1; rewrite Lf, L in C1.
  apply orb_true_iff in C1 as [C|C]; apply Nat.eqb_eq in C; auto.
Qed.

(** The accumulators of [main] have [NUM_THRESHOLDS] entries whatever
    [num_thresholds] is: on a data set with at least one row, any value of
    [num_thresholds] other than 50 and 1 makes [main] raise. *)
Theorem main_num_thresholds (data : list example) (num_thresholds : nat)
  (acceptance_ratio : Q) :
  data <> [] ->
  num_thresholds <> NUM_THRESHOLDS -> num_thresholds <> 1 ->
  accumulate_all data num_thresholds acceptance_ratio = None /\
  main data num_thresholds acceptance_ratio = None.
Proof.
  intros Hd H50 H1.
  assert (E : accumulate_all data num_thresholds acceptance_ratio = None).
  { destruct data as [|row data]; [easy|].
    unfold accumulate_all; cbn [for_each].
    destruct (accumulate num_thresholds acceptance_ratio initial_totals row)
      as [t'|] eqn:E; [|reflexivity].
    apply accumulate_thresholds in E; [lia|].
    apply zeros_length. }
  split; [assumption|]. unfold main; now rewrite E.
Qed.

Lemma main_num_thresholds_witness :
  [normal_image] <> [] /\ 2 <> NUM_THRESHOLDS /\ 2 <> 1 /\
  accumulate_all [normal_image] 2 (1 # 10) = None /\
  main [normal_image] 2 (1 # 10) = None.
Proof.
  assert (H1 : [normal_image] <> []) by discriminate.
  assert (H2 : 2 <> NUM_THRESHOLDS) by (unfold NUM_THRESHOLDS; lia).
  assert (H3 : 2 <> 1) by lia.
  repeat (split; [assumption|]).
  apply (main_num_thresholds [normal_image] 2 (1 # 10) H1 H2 H3).
Defined.

(** ** [num_thresholds = 1]: one count spread over the ladder *)

Lemma constant_step v x :
  length x = 1 -> length v <> 1 -> constant v ->
  constant (zip_with Nat.add v (spread (length v) x)).
Proof.
  intros Lx Lv Hv i j Hi Hj.
  assert (S : spread (length v) x = repeat (nth 0 x 0) (length v)).
  { unfold spread. destruct (Nat.eqb_spec (length x) (length v)); [lia|auto]. }
  rewrite S in *.
  rewrite zip_add_length in Hi, Hj by apply repeat_length.
  rewrite !nth_zip_add by apply repeat_length.
  rewrite !nth_repeat_lt by assumption.
  rewrite (Hv i j); auto.
Qed.

(** With [num_thresholds = 1] the single count of every image is added to
    each of the 50 entries of the accumulators, so the reported curve has
    the same sensitivity and the same FP rate at all 50 positions. *)
Theorem single_threshold_curve (data : list example) (acceptance_ratio : Q)
  (t : totals) :
  accumulate_all data 1 acceptance_ratio = Some t ->
  length (t_FPs t) = NUM_THRESHOLDS /\ length (t_TPs t) = NUM_THRESHOLDS /\
  constant (t_FPs t) /\ constant (t_TPs t) /\
  (forall sens fp i j,
     main data 1 acceptance_ratio = Some (sens, fp) ->
     i < NUM_THRESHOLDS -> j < NUM_THRESHOLDS ->
     nth_error sens i = nth_error sens j /\
     nth_error fp i = nth_error fp j).
Proof.
  intros E.
  assert (I : (length (t_FPs t) = NUM_THRESHOLDS /\
               length (t_TPs t) = NUM_THRESHOLDS) /\
              constant (t_FPs t) /\ constant (t_TPs t)).
  { apply (for_each_invariant (accumulate 1 acceptance_ratio)
             (fun _ s => (length (t_FPs s) = NUM_THRESHOLDS /\
                          length (t_TPs s) = NUM_THRESHOLDS) /\
                         constant (t_FPs s) /\ constant (t_TPs s)))
      with (xs := data) (done := []) (s0 := initial_totals); auto.
    - intros _ s [logits label] s' ([L1 L2] & C1 & C2) Es.
      apply accumulate_some in Es
        as (f & tp & k & Ec & K1 & K2 & EF & ET & _).
      apply compute_FROC_lengths in Ec as [Lf Lt].
      rewrite EF, ET.
      rewrite !zip_add_length by now apply spread_length.
      repeat split; auto.
      + apply constant_step; auto. rewrite L1; discriminate.
      + apply constant_step; auto. rewrite L2; discriminate.
    - unfold initial_totals; cbn [t_FPs t_TPs]; rewrite zeros_length.
      repeat split; auto; intros i j _ _; now rewrite !nth_zeros. }
  destruct I as ([L1 L2] & C1 & C2).
  split; [assumption|]. split; [assumption|].
  split; [assumption|]. split; [assumption|].
  intros sens fp i j Hmain Hi Hj.
  unfold main in Hmain; rewrite E in Hmain; simpl in Hmain.
  injection Hmain as <- <-. rewrite !nth_error_map.
  rewrite !(nth_error_nth' _ 0) by lia. simpl.
  now rewrite (C2 i j), (C1 i j) by lia.
Qed.

Lemma single_threshold_curve_witness :
  let t := mk_totals (repeat 2 50) (zeros 50) 1 0 in
  accumulate_all [normal_image] 1 (1 # 10) = Some t /\
  length (t_FPs t) = NUM_THRESHOLDS /\ length (t_TPs t) = NUM_THRESHOLDS /\
  constant (t_FPs t) /\ constant (t_TPs t) /\
  (forall sens fp i j,
     main [normal_image] 1 (1 # 10) = Some (sens, fp) ->
     i < NUM_THRESHOLDS -> j < NUM_THRESHOLDS ->
     nth_error sens i = nth_error sens j /\
     nth_error fp i = nth_error fp j).
Proof.
  intros t.
  assert (H : accumulate_all [normal_image] 1 (1 # 10) = Some t).
  { unfold accumulate_all, normal_image; cbn [for_each].
    rewrite accumulate_spec.
    rewrite compute_FROC_heat_normal with (m := 127%Z);
      [|reflexivity|reflexivity|discriminate].
    vm_compute; reflexivity. }
  split; [assumption|].
  apply (single_threshold_curve [normal_image] (1 # 10) t H).
Defined.

(** ** What the two counters of [main] count *)

Lemma in_row_get (row : list Z) v :
  In v row -> exists c, nth c (map (fun x => Z.eqb x v) row) false = true.
Proof.
  induction row as [|x row IH]; [easy|].
  intros [->|H].
  - exists 0; simpl. apply Z.eqb_refl.
  - destruct (IH H) as [c Hc]. now exists (S c).
Qed.

Lemma in_eq_Z (label : image Z) v :
  In v (concat label) -> exists r c, get false (eq_Z label v) r c = true.
Proof.
  unfold get, eq_Z; induction label as [|row a IH]; [easy|].
  simpl; intros H; apply in_app_or in H as [H|H].
  - destruct (in_row_get row v H) as [c Hc]. now exists 0, c.
  - destruct (IH H) as (r & c & Hrc). now exists (S r), c.
Qed.

Lemma region_count_positive label :
  In 255%Z (concat label) -> 0 < region_count label.
Proof.
  intros H; destruct (in_eq_Z label 255 H) as (r & c & Hrc).
  destruct (label_spec (eq_Z label 255) structure_mask adjacent_8_sym)
    as (_ & Hfg & Hle & _).
  unfold region_count.
  pose proof (proj2 (Hfg (r, c)) Hrc). pose proof (Hle (r, c)).
  simpl in *; lia.
Qed.

Lemma region_count_zero label :
  ~ In 255%Z (concat label) -> region_count label = 0.
Proof.
  intros H.
  destruct (label_spec (eq_Z label 255) structure_mask adjacent_8_sym)
    as (_ & Hfg & _ & Hused & _).
  unfold region_count.
  destruct (snd (Ndimage.label (eq_Z label 255) structure_mask)) as [|n] eqn:E;
    [reflexivity|].
  exfalso; apply H.
  destruct (Hused 1) as [[r c] Hp]; [simpl; lia|].
  apply (eq_Z_in label 255 r c). apply (proj1 (Hfg (r, c))). lia.
Qed.

Lemma has_lesion_iff label :
  has_lesion label = true <-> In 255%Z (concat label).
Proof.
  unfold has_lesion; rewrite existsb_exists; split.
  - intros (v & Hv & E). apply Z.eqb_eq in E. now subst.
  - intros H; exists 255%Z; split; auto.
Qed.

(** The number of lesions [compute_FROC] returns for an 8-bit label. *)
Lemma compute_FROC_num_lesions logits label n r FPs TPs k :
  0 < n -> is_uint8 label = true ->
  compute_FROC logits label n r = Some (FPs, TPs, k) ->
  k = region_count label /\ (k =? 0) = negb (has_lesion label).
Proof.
  intros Hn Hu E; apply compute_FROC_view in E.
  assert (K : k = region_count label).
  { destruct E as [(_ & _ & _ & _ & _ & ->)|(_ & _ & -> & V)]; [reflexivity|].
    destruct (V Hn) as (_ & m & Hm & Hne).
    symmetry; apply region_count_zero; intros Hin.
    rewrite (max_255 label (is_uint8_le label Hu) Hin) in Hm. congruence. }
  split; [assumption|]. subst k.
  destruct (has_lesion label) eqn:HL; simpl.
  - apply has_lesion_iff in HL. apply region_count_positive in HL.
    apply Nat.eqb_neq; lia.
  - apply Nat.eqb_eq, region_count_zero.
    intros Hin; apply has_lesion_iff in Hin; congruence.
Qed.

(** On a data set of 8-bit labels that [main] gets through, the lesion
    total is the number of 8-connected regions of 255-pixels over all the
    labels, and the counter of normal images is the number of rows whose
    label has no 255 pixel. *)
Theorem counters_of_main (data : list example) (num_thresholds : nat)
  (acceptance_ratio : Q) (t : totals) :
  Forall (fun row : example => is_uint8 (snd row) = true) data ->
  accumulate_all data num_thresholds acceptance_ratio = Some t ->
  t_num_lesions t
    = list_sum (map (fun row : example => region_count (snd row)) data) /\
  t_num_normal_images t
    = length (filter (fun row : example => negb (has_lesion (snd row))) data).
Proof.
  intros Hu E.
  set (P := fun (done : list example) (s : totals) =>
    length (t_FPs s) = NUM_THRESHOLDS /\
    (Forall (fun row : example => is_uint8 (snd row) = true) done ->
     t_num_lesions s
       = list_sum (map (fun row : example => region_count (snd row)) done) /\
     t_num_normal_images s
       = length (filter (fun row : example => negb (has_lesion (snd row)))
                        done))).
  assert (I : P ([] ++ data) t).
  { apply (for_each_invariant (accumulate num_thresholds acceptance_ratio) P)
      with (s0 := initial_totals); auto.
    - intros done s [logits label] s' [L H] Es.
      pose proof (accumulate_thresholds _ _ _ _ _ L Es) as Hn.
      apply accumulate_some in Es
        as (f & tp & k & Ec & K1 & K2 & EF & _ & EN & EL).
      split.
      { rewrite EF, zip_add_length; auto. now apply spread_length. }
      intros HF; apply Forall_app in HF as [HF Hx].
      apply Forall_inv in Hx; simpl in Hx.
      destruct (H HF) as [H1 H2].
      destruct (compute_FROC_num_lesions logits label num_thresholds
                  acceptance_ratio f tp k) as [Hk Hz]; auto.
      { unfold NUM_THRESHOLDS in Hn; lia. }
      rewrite EL, EN, map_app, list_sum_app, filter_app, length_app.
      cbn [map list_sum filter snd]. rewrite Hz, H1, H2, Hk.
      destruct (negb (has_lesion label)); simpl; lia.
    - split; [apply zeros_length|]. intros _; split; reflexivity. }
  destruct I as [_ I]. now apply I.
Qed.

Lemma counters_of_main_witness :
  let data := [lesion_image; one_blob_image] in
  let t := mk_totals (repeat 1 50) (repeat 1 50) 1 1 in
  Forall (fun row : example => is_uint8 (snd row) = true) data /\
  accumulate_all data 50 (1 # 10) = Some t /\
  t_num_lesions t
    = list_sum (map (fun row : example => region_count (snd row)) data) /\
  t_num_normal_images t
    = length (filter (fun row : example => negb (has_lesion (snd row))) data).
Proof.
  intros data t.
  assert (H1 : Forall (fun row : example => is_uint8 (snd row) = true) data)
    by (repeat constructor).
  assert (H2 : accumulate_all data 50 (1 # 10) = Some t)
    by apply two_images_totals.
  repeat (split; [assumption|]).
  apply (counters_of_main data 50 (1 # 10) t H1 H2).
Defined.

(** ** The clamp, in closed form *)

Lemma clamped_upper raw i j : j <= i -> raw j <= clamped raw i.
Proof.
  induction i as [|i IH]; intros H.
  - replace j with 0 by lia. simpl; lia.
  - destruct (Nat.eq_dec j (S i)) as [->|Hne]; simpl; [lia|].
    specialize (IH ltac:(lia)); lia.
Qed.

Lemma clamped_attained raw i : exists j, j <= i /\ clamped raw i = raw j.
Proof.
  induction i as [|i (j & Hj & E)]; [exists 0; auto|].
  simpl. destruct (Nat.max_spec (raw (S i)) (clamped raw i)) as [[_ ->]|[_ ->]].
  - exists j; split; [lia | assumption].
  - exists (S i); auto.
Qed.

(** On an image without lesions, the FP entry at a ladder position is the
    largest number of predicted regions found at that position or at any
    stricter one. *)
Theorem FPs_largest_count_so_far (logits : image R) (label : image Z)
  (num_thresholds : nat) (acceptance_ratio : Q) :
  same_shape logits label = true ->
  concat label <> [] ->
  ~ In 255%Z (concat label) ->
  exists FPs TPs num_lesions,
    compute_FROC logits label num_thresholds acceptance_ratio
      = Some (FPs, TPs, num_lesions) /\
    (forall i j segmentation,
       j <= i -> i < num_thresholds ->
       post logits label (nth j (thresholds num_thresholds) 0%R)
         = Some segmentation ->
       snd (Ndimage.label (eq_Z segmentation 255) structure_mask)
         <= nth i FPs 0) /\
    (forall i, i < num_thresholds ->
       exists j segmentation,
         j <= i /\
         post logits label (nth j (thresholds num_thresholds) 0%R)
           = Some segmentation /\
         nth i FPs 0
           = snd (Ndimage.label (eq_Z segmentation 255) structure_mask)).
Proof.
  intros Hs Hne Hnot.
  destruct (max_not_255 label Hne Hnot) as (m & Hm & Hd).
  rewrite compute_FROC_normal with (m := m) by assumption.
  do 3 eexists; split; [reflexivity|]; split.
  - intros i j seg Hji Hi Hp.
    rewrite post_segmentation_at in Hp by assumption; injection Hp as <-.
    rewrite nth_map_seq by assumption.
    apply (clamped_upper
             (fun i => blob_count (segmentation_at logits label num_thresholds i))
             i j Hji).
  - intros i Hi; rewrite nth_map_seq by assumption.
    destruct (clamped_attained
                (fun i => blob_count
                            (segmentation_at logits label num_thresholds i)) i)
      as (j & Hj & E).
    exists j, (segmentation_at logits label num_thresholds j).
    split; [assumption|]. split; [now apply post_segmentation_at|].
    exact E.
Qed.

Lemma FPs_largest_count_so_far_witness :
  same_shape logits_2x2 label_normal_2x2 = true /\
  concat label_normal_2x2 <> [] /\
  ~ In 255%Z (concat label_normal_2x2) /\
  exists FPs TPs num_lesions,
    compute_FROC logits_2x2 label_normal_2x2 3 (1 # 10)
      = Some (FPs, TPs, num_lesions) /\
    (forall i j segmentation,
       j <= i -> i < 3 ->
       post logits_2x2 label_normal_2x2 (nth j (thresholds 3) 0%R)
         = Some segmentation ->
       snd (Ndimage.label (eq_Z segmentation 255) structure_mask)
         <= nth i FPs 0) /\
    (forall i, i < 3 ->
       exists j segmentation,
         j <= i /\
         post logits_2x2 label_normal_2x2 (nth j (thresholds 3) 0%R)
           = Some segmentation /\
         nth i FPs 0
           = snd (Ndimage.label (eq_Z segmentation 255) structure_mask)).
Proof.
  assert (H1 : same_shape logits_2x2 label_normal_2x2 = true) by reflexivity.
  assert (H2 : concat label_normal_2x2 <> []) by (simpl; discriminate).
  assert (H3 : ~ In 255%Z (concat label_normal_2x2)).
  { simpl; intros H; repeat destruct H as [H|H]; try discriminate; easy. }
  repeat (split; [assumption|]).
  apply (FPs_largest_count_so_far logits_2x2 label_normal_2x2 3 (1 # 10)
           H1 H2 H3).
Defined.

(** ** [post] under a looser threshold *)

Lemma post_pixel_values t x l :
  post_pixel t x l = 0%Z \/ post_pixel t x l = 127%Z \/ post_pixel t x l = 255%Z.
Proof.
  unfold post_pixel; destruct (Z.eqb l 0); auto.
  destruct (Rgeb x t); auto.
Qed.

Lemma post_pixel_background t t' x l :
  post_pixel t x l = 0%Z <-> post_pixel t' x l = 0%Z.
Proof.
  unfold post_pixel; destruct (Z.eqb l 0); [tauto|].
  destruct (Rgeb x t), (Rgeb x t'); split; intros; discriminate.
Qed.

Lemma post_pixel_looser t t' x l :
  (t' <= t)%R -> post_pixel t x l = 255%Z -> post_pixel t' x l = 255%Z.
Proof.
  intros Ht H.
  pose proof (post_pixel_monotone t t' x l Ht) as M; unfold below in M.
  rewrite !Z.eqb_eq in M; auto.
Qed.

(** Segmenting one image at a threshold and at a looser one: every pixel is
    0, 127 or 255; the background (0) is the same in both; and a pixel that
    is 255 at the stricter threshold is 255 at the looser one. *)
Theorem post_looser_threshold (logits : image R) (label : image Z)
  (t t' : R) :
  same_shape logits label = true ->
  (t' <= t)%R ->
  exists seg seg',
    post logits label t = Some seg /\ post logits label t' = Some seg' /\
    shape seg = shape seg' /\
    forall r c v,
      pixel seg r c = Some v ->
      (v = 0 \/ v = 127 \/ v = 255)%Z /\
      (v = 0%Z <-> pixel seg' r c = Some 0%Z) /\
      (v = 255%Z -> pixel seg' r c = Some 255%Z).
Proof.
  intros Hs Ht; rewrite !post_unfold, Hs.
  do 2 eexists; split; [reflexivity|]; split; [reflexivity|]; split.
  - now rewrite !shape_zip_with by assumption.
  - intros r c v; rewrite !pixel_zip_with.
    destruct (pixel logits r c) as [x|]; [|discriminate].
    destruct (pixel label r c) as [l|]; [|discriminate].
    intros E; injection E as <-. split; [apply post_pixel_values|]. split.
    + rewrite (post_pixel_background t t' x l). split; [congruence|].
      intros E; now injection E.
    + intros H; f_equal. now apply post_pixel_looser with t.
Qed.

Lemma post_looser_threshold_witness :
  same_shape logits_2x2 label_2x2 = true /\
  (0 <= 1)%R /\
  exists seg seg',
    post logits_2x2 label_2x2 1 = Some seg /\
    post logits_2x2 label_2x2 0 = Some seg' /\
    shape seg = shape seg' /\
    forall r c v,
      pixel seg r c = Some v ->
      (v = 0 \/ v = 127 \/ v = 255)%Z /\
      (v = 0%Z <-> pixel seg' r c = Some 0%Z) /\
      (v = 255%Z -> pixel seg' r c = Some 255%Z).
Proof.
  assert (H1 : same_shape logits_2x2 label_2x2 = true) by reflexivity.
  assert (H2 : (0 <= 1)%R) by lra.
  repeat (split; [assumption|]).
  apply (post_looser_threshold logits_2x2 label_2x2 1 0 H1 H2).
Defined.

(** ** Lesions that are covered entirely, or not at all *)

Lemma nth_zip_and (x y : list bool) c :
  nth c (zip_with andb x y) false = nth c x false && nth c y false.
Proof.
  revert y c; induction x as [|a x IH]; intros [|b y] [|c]; simpl; auto.
  - now rewrite andb_false_r.
  - now rewrite andb_false_r.
Qed.

Lemma get_nil {A : Type} (d : A) r c : get d (@nil (list A)) r c = d.
Proof. unfold get; destruct r, c; reflexivity. Qed.

Lemma get_logical_and (a b : image bool) r c :
  get false (logical_and a b) r c = get false a r c && get false b r c.
Proof.
  unfold logical_and; revert b r.
  induction a as [|x a IH]; intros b r.
  - simpl zip_with. now rewrite !get_nil.
  - destruct b as [|y b].
    + simpl zip_with. now rewrite !get_nil, andb_false_r.
    + destruct r as [|r]; [apply nth_zip_and | apply (IH b r)].
Qed.

Lemma get_eq_Z_255 (a : image Z) r c :
  get false (eq_Z a 255) r c = Z.eqb (get 0%Z a r c) 255.
Proof. apply (get_map (fun x => Z.eqb x 255) 0%Z a r c). Qed.

Lemma pixel_get {A : Type} (d : A) (a : image A) r c v :
  pixel a r c = Some v -> get d a r c = v.
Proof.
  unfold pixel, get; intros H.
  destruct (nth_error a r) as [row|] eqn:E; [|discriminate].
  rewrite (nth_error_nth a r [] E). now apply nth_error_nth.
Qed.

Lemma inside_pixel {A : Type} (d : A) (a : image A) r c :
  inside a r c -> pixel a r c = Some (get d a r c).
Proof.
  unfold inside, pixel, get; intros [Hr Hc].
  rewrite (nth_error_nth' a [] Hr). now apply nth_error_nth'.
Qed.

Lemma sum_of_get (a : image bool) r c :
  get false a r c = true -> 0 < Np.sum a.
Proof.
  unfold get; revert r; induction a as [|row a IH]; intros [|r] H.
  - destruct c; discriminate.
  - destruct c; discriminate.
  - rewrite sum_cons. simpl in H.
    assert (Hin : In true (filter (fun b : bool => b) row)).
    { apply filter_In; split; auto. rewrite <- H. apply nth_In.
      destruct (Nat.lt_ge_cases c (length row)); auto.
      rewrite nth_overflow in H by assumption. discriminate. }
    destruct (filter (fun b : bool => b) row); [easy | simpl; lia].
  - rewrite sum_cons. simpl in H. specialize (IH r H). lia.
Qed.

Lemma sum_no_get (a : image bool) :
  (forall r c, get false a r c = false) -> Np.sum a = 0.
Proof.
  intros H; destruct (Np.sum a) eqn:E; [reflexivity|].
  destruct (sum_positive a) as (r & c & Hrc); [lia|].
  rewrite H in Hrc; discriminate.
Qed.

Lemma filter_all {A : Type} (p : A -> bool) l :
  (forall x, In x l -> p x = true) -> length (filter p l) = length l.
Proof.
  induction l as [|x l IH]; intros H; simpl; auto.
  rewrite (H x) by now left. simpl; f_equal; apply IH.
  intros y Hy; apply H; now right.
Qed.

Lemma filter_none {A : Type} (p : A -> bool) l :
  (forall x, In x l -> p x = false) -> length (filter p l) = 0.
Proof.
  induction l as [|x l IH]; intros H; simpl; auto.
  rewrite (H x) by now left. apply IH.
  intros y Hy; apply H; now right.
Qed.

(** The segmentation at a lesion pixel. *)
Lemma segmentation_at_lesion_pixel logits label n i r c :
  same_shape logits label = true ->
  get false (eq_Z label 255) r c = true ->
  exists x,
    pixel label r c = Some 255%Z /\ pixel logits r c = Some x /\
    get false (eq_Z (segmentation_at logits label n i) 255) r c
      = Rgeb x (nth i (thresholds n) 0%R).
Proof.
  intros Hs Hfg.
  assert (Hin : inside label r c).
  { apply inside_shape with (eq_Z label 255);
      [apply shape_map | now apply fg_inside]. }
  rewrite get_eq_Z_255 in Hfg; apply Z.eqb_eq in Hfg.
  assert (Hl : pixel label r c = Some 255%Z).
  { rewrite (inside_pixel 0%Z label r c Hin). now rewrite Hfg. }
  destruct (same_shape_pixel logits label r c _ Hs Hl) as [x Hx].
  exists x; repeat split; auto.
  rewrite get_eq_Z_255.
  assert (Hp : pixel (segmentation_at logits label n i) r c
               = Some (post_pixel (nth i (thresholds n) 0%R) x 255)).
  { unfold segmentation_at; now rewrite pixel_zip_with, Hx, Hl. }
  rewrite (pixel_get 0%Z _ r c _ Hp).
  unfold post_pixel; simpl. now destruct (Rgeb x _).
Qed.

(** On an image with lesions, at a ladder position whose threshold no
    lesion pixel reaches, no lesion is counted; at a position whose
    threshold every lesion pixel reaches, every lesion is counted. *)
Theorem TPs_none_or_all (logits : image R) (label : image Z)
  (num_thresholds i : nat) (acceptance_ratio : Q) :
  same_shape logits label = true ->
  is_uint8 label = true ->
  In 255%Z (concat label) ->
  i < num_thresholds ->
  exists FPs TPs num_lesions,
    compute_FROC logits label num_thresholds acceptance_ratio
      = Some (FPs, TPs, num_lesions) /\
    0 < num_lesions /\
    ((forall r c x, pixel label r c = Some 255%Z ->
        pixel logits r c = Some x ->
        (x < nth i (thresholds num_thresholds) 0)%R) ->
     nth i TPs 0 = 0) /\
    ((forall r c x, pixel label r c = Some 255%Z ->
        pixel logits r c = Some x ->
        (x >= nth i (thresholds num_thresholds) 0)%R) ->
     nth i TPs 0 = num_lesions).
Proof.
  intros Hs Hu Hin Hi.
  pose proof (region_count_positive label Hin) as Hpos.
  unfold region_count in Hpos.
  pose proof (is_uint8_le label Hu) as Hb.
  rewrite compute_FROC_lesions by auto using max_255.
  destruct (label_spec (eq_Z label 255) structure_mask adjacent_8_sym)
    as (Hshape & Hfg & _ & Hused & _).
  destruct (Ndimage.label (eq_Z label 255) structure_mask)
    as [lesions num]; simpl in Hshape, Hfg, Hused, Hpos.
  assert (En : (num_thresholds =? 0) = false) by (apply Nat.eqb_neq; lia).
  do 3 eexists; split; [reflexivity|]. rewrite En.
  split; [exact Hpos|].
  rewrite nth_map_seq by assumption.
  (* a pixel of region [id] is a lesion pixel *)
  assert (Hreg : forall id r c, id <> 0 ->
            get false (eq_nat lesions id) r c = true ->
            get false (eq_Z label 255) r c = true).
  { intros id r c Hid H. rewrite get_eq_nat in H by assumption.
    apply Nat.eqb_eq in H. apply (proj1 (Hfg (r, c))).
    unfold lab; simpl; lia. }
  (* every region has a pixel *)
  assert (Harea : forall id, In id (seq 1 num) -> 0 < lesion_area lesions id).
  { intros id Hid; apply in_seq in Hid.
    destruct (Hused id ltac:(lia)) as [[r c] Hp].
    apply (sum_of_get _ r c). rewrite get_eq_nat by lia.
    now apply Nat.eqb_eq. }
  split; intros Hall.
  - (* no overlap *)
    unfold tp_count; apply filter_none; intros id Hid.
    unfold detected. apply not_true_is_false; rewrite accepted_iff.
    assert (Ho : overlap_area lesions
                   (segmentation_at logits label num_thresholds i) id = 0).
    { apply sum_no_get; intros r c; rewrite get_logical_and.
      destruct (get false (eq_nat lesions id) r c) eqn:Em; [|reflexivity].
      apply in_seq in Hid.
      destruct (segmentation_at_lesion_pixel logits label
                  num_thresholds i r c Hs
                  (Hreg id r c ltac:(lia) Em)) as (x & Hl & Hx & ->).
      simpl. apply Rgeb_false. eapply Hall; eauto. }
    rewrite Ho. pose proof (Harea id Hid). lia.
  - (* full overlap *)
    unfold tp_count. rewrite filter_all; [now rewrite length_seq|].
    intros id Hid. unfold detected; apply accepted_iff.
    assert (Ho : overlap_area lesions
                   (segmentation_at logits label num_thresholds i) id
                 = lesion_area lesions id).
    { unfold overlap_area, lesion_area. f_equal.
      apply image_ext with (d := false).
      - unfold logical_and; apply shape_zip_with.
        unfold same_shape, eq_nat, eq_Z, segmentation_at.
        rewrite !shape_map, shape_zip_with by assumption.
        apply eqb_shape_eq. rewrite Hshape. unfold eq_Z.
        rewrite shape_map. symmetry. now apply eqb_shape_eq.
      - intros r c; rewrite get_logical_and.
        destruct (get false (eq_nat lesions id) r c) eqn:Em; [|reflexivity].
        apply in_seq in Hid.
        destruct (segmentation_at_lesion_pixel logits label
                    num_thresholds i r c Hs
                    (Hreg id r c ltac:(lia) Em)) as (x & Hl & Hx & ->).
        simpl. apply Rgeb_true. eapply Hall; eauto. }
    rewrite Ho. pose proof (Harea id Hid). lia.
Qed.

Lemma TPs_none_or_all_witness :
  same_shape logits_2x2 label_2x2 = true /\
  is_uint8 label_2x2 = true /\
  In 255%Z (concat label_2x2) /\
  0 < 3 /\
  exists FPs TPs num_lesions,
    compute_FROC logits_2x2 label_2x2 3 (1 # 10)
      = Some (FPs, TPs, num_lesions) /\
    0 < num_lesions /\
    ((forall r c x, pixel label_2x2 r c = Some 255%Z ->
        pixel logits_2x2 r c = Some x ->
        (x < nth 0 (thresholds 3) 0)%R) ->
     nth 0 TPs 0 = 0) /\
    ((forall r c x, pixel label_2x2 r c = Some 255%Z ->
        pixel logits_2x2 r c = Some x ->
        (x >= nth 0 (thresholds 3) 0)%R) ->
     nth 0 TPs 0 = num_lesions).
Proof.
  assert (H1 : same_shape logits_2x2 label_2x2 = true) by reflexivity.
  assert (H2 : is_uint8 label_2x2 = true) by reflexivity.
  assert (H3 : In 255%Z (concat label_2x2)) by (simpl; auto).
  assert (H4 : 0 < 3) by lia.
  repeat (split; [assumption|]).
  apply (TPs_none_or_all logits_2x2 label_2x2 3 0 (1 # 10) H1 H2 H3 H4).
Defined.

(** ** The ladder is symmetric *)






(** ** One bad row stops the run *)

Lemma for_each_bad_row {S A : Type} (body : S -> A -> option S) x :
  (forall s, body s x = None) ->
  forall xs s, In x xs -> for_each body xs s = None.
Proof.
  intros Hx; induction xs as [|y xs IH]; intros s Hin; [easy|].
  simpl. destruct Hin as [->|Hin]; [now rewrite Hx|].
  destruct (body s y); simpl; auto.
Qed.

(** If one row of the data set has a heatmap and a label of different
    shapes, or a label without entries, [main] raises whatever the other
    rows are and wherever the row stands: no metric is produced. *)
Theorem main_bad_row (data : list example) (logits : image R)
  (label : image Z) (num_thresholds : nat) (acceptance_ratio : Q) :
  In (logits, label) data ->
  0 < num_thresholds ->
  same_shape logits label = false \/ concat label = [] ->
  main data num_thresholds acceptance_ratio = None.
Proof.
  intros Hin Hn Hbad.
  assert (E : compute_FROC logits label num_thresholds acceptance_ratio = None).
  { destruct Hbad as [H|H].
    - now apply compute_FROC_shape_mismatch.
    - apply compute_FROC_no_max; auto. unfold Np.max; now rewrite H. }
  unfold main, accumulate_all.
  rewrite for_each_bad_row with (x := (logits, label)); auto.
  intros s; rewrite accumulate_spec. now rewrite E.
Qed.

Lemma main_bad_row_witness :
  In (logits_2x2, [[255]]%Z) [normal_image; (logits_2x2, [[255]]%Z)] /\
  0 < 50 /\
  (same_shape logits_2x2 [[255]]%Z = false \/ concat [[255]]%Z = []) /\
  main [normal_image; (logits_2x2, [[255]]%Z)] 50 (1 # 10) = None.
Proof.
  assert (H1 : In (logits_2x2, [[255]]%Z)
                  [normal_image; (logits_2x2, [[255]]%Z)])
    by (right; now left).
  assert (H2 : 0 < 50) by lia.
  assert (H3 : same_shape logits_2x2 [[255]]%Z = false \/ concat [[255]]%Z = [])
    by (left; reflexivity).
  repeat (split; [assumption|]).
  apply (main_bad_row [normal_image; (logits_2x2, [[255]]%Z)] logits_2x2
           [[255]]%Z 50 (1 # 10) H1 H2 H3).
Defined.

(** ** Where the heatmap is not looked at *)

Lemma get_of_pixel {A : Type} (d : A) (a : image A) r c :
  get d a r c = match pixel a r c with Some v => v | None => d end.
Proof.
  unfold get, pixel.
  destruct (nth_error a r) as [row|] eqn:E.
  - rewrite (nth_error_nth a r [] E).
    destruct (nth_error row c) as [v|] eqn:Ec.
    + now apply nth_error_nth.
    + apply nth_overflow. apply (proj1 (nth_error_None row c)); exact Ec.
  - rewrite (nth_overflow a []) by (apply (proj1 (nth_error_None a r)); exact E).
    now destruct c.
Qed.

Lemma same_shape_eq {A B : Type} (a : image A) (b : image B) :
  same_shape a b = true <-> shape a = shape b.
Proof. apply eqb_shape_eq. Qed.

(** Two heatmaps that agree wherever the label is not 0 are segmented the
    same way. *)
Lemma segmentation_agree logits logits' label t :
  same_shape logits label = true -> same_shape logits' label = true ->
  (forall r c l x x',
     pixel label r c = Some l -> l <> 0%Z ->
     pixel logits r c = Some x -> pixel logits' r c = Some x' -> x = x') ->
  zip_with (zip_with (post_pixel t)) logits label
    = zip_with (zip_with (post_pixel t)) logits' label.
Proof.
  intros Hs Hs' Hag.
  apply image_ext with (d := 0%Z).
  - rewrite !shape_zip_with by assumption.
    apply same_shape_eq in Hs, Hs'. congruence.
  - intros r c; rewrite !get_of_pixel, !pixel_zip_with.
    destruct (pixel label r c) as [l|] eqn:El.
    + destruct (same_shape_pixel logits label r c l Hs El) as [x Hx].
      destruct (same_shape_pixel logits' label r c l Hs' El) as [x' Hx'].
      rewrite Hx, Hx'. unfold post_pixel.
      destruct (Z.eqb_spec l 0); [reflexivity|].
      now rewrite (Hag r c l x x' El n Hx Hx').
    + now destruct (pixel logits r c), (pixel logits' r c).
Qed.

Lemma compute_FROC_same_segmentations logits logits' label n r :
  same_shape logits label = true -> same_shape logits' label = true ->
  (forall i, i < n ->
     segmentation_at logits label n i = segmentation_at logits' label n i) ->
  compute_FROC logits label n r = compute_FROC logits' label n r.
Proof.
  intros Hs Hs' Hseg.
  destruct n as [|n]; [reflexivity|].
  destruct (Np.max label) as [m|] eqn:Hm.
  2:{ now rewrite !compute_FROC_no_max by (auto; lia). }
  destruct (Z.eq_dec m 255) as [->|Hne].
  - rewrite !compute_FROC_lesions by assumption.
    destruct (Ndimage.label (eq_Z label 255) structure_mask) as [lesions num].
    do 3 f_equal. apply map_ext_in; intros i Hi; apply in_seq in Hi.
    now rewrite Hseg by lia.
  - rewrite !compute_FROC_normal with (m := m) by assumption.
    do 3 f_equal. apply map_ext_in; intros i Hi; apply in_seq in Hi.
    apply clamped_ext; intros j Hj. now rewrite Hseg by lia.
Qed.

(** The logits at the pixels where the label is 0 play no part: two
    heatmaps that agree at every other pixel give the same result. *)
Theorem background_logits_ignored (logits logits' : image R)
  (label : image Z) (num_thresholds : nat) (acceptance_ratio : Q) :
  same_shape logits label = true -> same_shape logits' label = true ->
  (forall r c l x x',
     pixel label r c = Some l -> l <> 0%Z ->
     pixel logits r c = Some x -> pixel logits' r c = Some x' -> x = x') ->
  compute_FROC logits label num_thresholds acceptance_ratio
    = compute_FROC logits' label num_thresholds acceptance_ratio.
Proof.
  intros Hs Hs' Hag; apply compute_FROC_same_segmentations; auto.
  intros i _; unfold segmentation_at. now apply segmentation_agree.
Qed.

Lemma background_logits_ignored_witness :
  same_shape logits_2x2 label_2x2 = true /\
  same_shape logits_2x2_other label_2x2 = true /\
  (forall r c l x x',
     pixel label_2x2 r c = Some l -> l <> 0%Z ->
     pixel logits_2x2 r c = Some x -> pixel logits_2x2_other r c = Some x' ->
     x = x') /\
  compute_FROC logits_2x2 label_2x2 3 (1 # 10)
    = compute_FROC logits_2x2_other label_2x2 3 (1 # 10).
Proof.
  assert (H1 : same_shape logits_2x2 label_2x2 = true) by reflexivity.
  assert (H2 : same_shape logits_2x2_other label_2x2 = true) by reflexivity.
  assert (H3 : forall r c l x x',
            pixel label_2x2 r c = Some l -> l <> 0%Z ->
            pixel logits_2x2 r c = Some x ->
            pixel logits_2x2_other r c = Some x' -> x = x').
  { intros r c l x x' Hl Hne Hx Hx'.
    unfold pixel, logits_2x2, logits_2x2_other, label_2x2 in *.
    destruct r as [|[|r]], c as [|[|c]]; simpl in *; try congruence;
      try (destruct r; discriminate); try (destruct c; discriminate). }
  repeat (split; [assumption|]).
  apply (background_logits_ignored logits_2x2 logits_2x2_other label_2x2 3
           (1 # 10) H1 H2 H3).
Defined.

(** On an image with lesions only the logits at the lesion pixels count:
    predictions elsewhere, however many, change nothing in the result. *)
Theorem lesion_image_other_pixels_ignored (logits logits' : image R)
  (label : image Z) (num_thresholds : nat) (acceptance_ratio : Q) :
  same_shape logits label = true -> same_shape logits' label = true ->
  is_uint8 label = true ->
  In 255%Z (concat label) ->
  (forall r c x x',
     pixel label r c = Some 255%Z ->
     pixel logits r c = Some x -> pixel logits' r c = Some x' -> x = x') ->
  compute_FROC logits label num_thresholds acceptance_ratio
    = compute_FROC logits' label num_thresholds acceptance_ratio.
Proof.
  intros Hs Hs' Hu Hin Hag.
  pose proof (is_uint8_le label Hu) as Hb.
  rewrite !compute_FROC_lesions by auto using max_255.
  destruct (label_spec (eq_Z label 255) structure_mask adjacent_8_sym)
    as (Hshape & Hfg & _).
  destruct (Ndimage.label (eq_Z label 255) structure_mask)
    as [lesions num]; simpl in Hshape, Hfg.
  do 3 f_equal. apply map_ext_in; intros i Hi; apply in_seq in Hi.
  unfold tp_count; f_equal. apply filter_ext_in; intros id Hid.
  apply in_seq in Hid. unfold detected; f_equal.
  unfold overlap_area; f_equal.
  apply image_ext with (d := false).
  - unfold logical_and, eq_nat, eq_Z, segmentation_at.
    assert (E : shape lesions = shape label)
      by (rewrite Hshape; apply shape_map).
    apply same_shape_eq in Hs, Hs'.
    rewrite !shape_zip_with; auto;
      unfold same_shape; rewrite !shape_map;
      rewrite shape_zip_with by (now apply same_shape_eq);
      apply eqb_shape_eq; congruence.
  - intros r c; rewrite !get_logical_and.
    destruct (get false (eq_nat lesions id) r c) eqn:Em; [|reflexivity].
    assert (Hl : get false (eq_Z label 255) r c = true).
    { rewrite get_eq_nat in Em by lia. apply Nat.eqb_eq in Em.
      apply (proj1 (Hfg (r, c))). unfold lab; simpl; lia. }
    destruct (segmentation_at_lesion_pixel logits label num_thresholds i r c
                Hs Hl) as (x & Hp & Hx & ->).
    destruct (segmentation_at_lesion_pixel logits' label num_thresholds i r c
                Hs' Hl) as (x' & _ & Hx' & ->).
    now rewrite (Hag r c x x' Hp Hx Hx').
Qed.

Lemma lesion_image_other_pixels_ignored_witness :
  let label := [[255; 127]; [255; 255]]%Z in
  same_shape logits_2x2 label = true /\
  same_shape logits_2x2_other label = true /\
  is_uint8 label = true /\
  In 255%Z (concat label) /\
  (forall r c x x',
     pixel label r c = Some 255%Z ->
     pixel logits_2x2 r c = Some x -> pixel logits_2x2_other r c = Some x' ->
     x = x') /\
  compute_FROC logits_2x2 label 3 (1 # 10)
    = compute_FROC logits_2x2_other label 3 (1 # 10).
Proof.
  intros label.
  assert (H1 : same_shape logits_2x2 label = true) by reflexivity.
  assert (H2 : same_shape logits_2x2_other label = true) by reflexivity.
  assert (H3 : is_uint8 label = true) by reflexivity.
  assert (H4 : In 255%Z (concat label)) by (simpl; auto).
  assert (H5 : forall r c x x',
            pixel label r c = Some 255%Z ->
            pixel logits_2x2 r c = Some x ->
            pixel logits_2x2_other r c = Some x' -> x = x').
  { intros r c x x' Hl Hx Hx'.
    unfold pixel, logits_2x2, logits_2x2_other, label in *.
    destruct r as [|[|r]], c as [|[|c]]; simpl in *; try congruence;
      try (destruct r; discriminate); try (destruct c; discriminate). }
  repeat (split; [assumption|]).
  apply (lesion_image_other_pixels_ignored logits_2x2 logits_2x2_other label 3
           (1 # 10) H1 H2 H3 H4 H5).
Defined.
